(** * Sprague-Grundy sequences and their periodicity detectors

    A shallow embedding of [src/utils.py], [src/subtraction-game.py] and the
    oracle constructor of [src/main.py], followed by the properties of the
    Grundy builder and of the two brute-force period detectors.

    Python integers are unbounded, so they are [Z].  A Python list of
    integers is a [list Z]; subscripting is modelled with Python's rules
    (negative subscripts count from the end, anything else out of range
    raises [IndexError]).  A Python [set] of integers is a [gset Z]. *)

From stdpp Require Import base numbers list list_numbers gmap sets.

Local Open Scope Z_scope.

(** ** Outcomes of a Python call *)

Inductive exn : Type :=
  | IndexError
  | OverflowError.

(** [Ok v]: the call returns [v].  [Raise e]: the call raises [e].
    [Diverge]: the iteration budget that stands for the [while] loop was
    used up; [mex_loop_returns] below shows the builder never gets there. *)
Inductive outcome (A : Type) : Type :=
  | Ok (a : A)
  | Raise (e : exn)
  | Diverge.

Arguments Ok {A} a.
Arguments Raise {A} e.
Arguments Diverge {A}.

#[global] Instance outcome_ret : MRet outcome := fun A a => Ok a.

#[global] Instance outcome_bind : MBind outcome := fun A B f m =>
  match m with
  | Ok a => f a
  | Raise e => Raise e
  | Diverge => Diverge
  end.

(** ** Python primitives used by the sources *)

(** [xs[i]] as an expression. *)
Definition getitem (xs : list Z) (i : Z) : outcome Z :=
  let n := Z.of_nat (length xs) in
  let j := if i <? 0 then i + n else i in
  if (0 <=? j) && (j <? n) then
    match xs !! Z.to_nat j with
    | Some v => Ok v
    | None => Raise IndexError
    end
  else Raise IndexError.

(** [xs[i] = v] as a statement; the list after the assignment. *)
Definition setitem (xs : list Z) (i : Z) (v : Z) : outcome (list Z) :=
  let n := Z.of_nat (length xs) in
  let j := if i <? 0 then i + n else i in
  if (0 <=? j) && (j <? n) then Ok (<[Z.to_nat j := v]> xs)
  else Raise IndexError.

(** [range(start, stop)]: empty when [stop <= start]. *)
Definition range (start stop : Z) : list Z := seqZ start (stop - start).

(** [[v] * k].  The count is converted to the index type of the
    interpreter ([Py_ssize_t], 64 bits): a count below [-2^63] raises
    [OverflowError].  Otherwise the list is empty when [k <= 0] and has
    [k] elements when [k > 0]; memory is not modelled, so a list of any
    length is taken to be allocatable. *)
Definition list_repeat (v : Z) (k : Z) : outcome (list Z) :=
  if decide (k < - 2 ^ 63) then Raise OverflowError
  else Ok (replicate (Z.to_nat k) v).

(** ** Printing

    What the reporting code writes to the terminal, and how its run
    ends.  A printed line is kept as the values interpolated into its
    format string. *)

(** The palette [colors] of [print_periodic_segment]. *)
Inductive color : Type :=
  | RED | GREEN | YELLOW | BLUE | MAGENTA | CYAN | WHITE.

Definition colors : list color := [RED; GREEN; YELLOW; BLUE; MAGENTA; CYAN; WHITE].

(** [xs[i]] on a list of any element type. *)
Definition subscript {A : Type} (xs : list A) (i : Z) : outcome A :=
  let n := Z.of_nat (length xs) in
  let j := if i <? 0 then i + n else i in
  if (0 <=? j) && (j <? n) then
    match xs !! Z.to_nat j with
    | Some v => Ok v
    | None => Raise IndexError
    end
  else Raise IndexError.

(** The line [print(f"{color}[{i}] {grundy_values[i]}{Style.RESET_ALL}")]. *)
Record line : Type := Line { line_color : color; line_index : Z; line_value : Z }.

(** The exceptions of the reporting code: those of the functions it
    calls ([Subscripting e], from subscripting and from building the
    sequence), the [TypeError] of arithmetic on [None], and the
    [ZeroDivisionError] of [%]. *)
Inductive report_exn : Type :=
  | Subscripting (e : exn)
  | TypeError
  | ZeroDivisionError.

(** How a run ends: it returns, it raises, or (standing for [Diverge]) it
    does neither. *)
Inductive ending : Type :=
  | Returned
  | Raised (e : report_exn)
  | Unfinished.

(** The lines printed by a run, in order, and how it ended. *)
Definition printed (L : Type) : Type := (list L * ending)%type.

(** [first] and then, if it returned, [next]. *)
Definition and_then {L : Type} (first next : printed L) : printed L :=
  match first with
  | (out, Returned) => (out ++ next.1, next.2)
  | (out, e) => (out, e)
  end.

(** The loop [for i in range(start, end)] of [print_periodic_segment],
    the same in both modules (utils.py lines 131-134, subtraction-game.py
    lines 145-148). *)
Fixpoint print_segment_loop (grundy_values : list Z) (start period : Z)
    (indices : list Z) : printed line :=
  match indices with
  | [] => ([], Returned)
  | i :: rest =>
      if decide (period = 0) then ([], Raised ZeroDivisionError)
      else
        let color_index := (i - start) `mod` period in
        match subscript colors (color_index `mod` Z.of_nat (length colors)) with
        | Ok color =>
            match getitem grundy_values i with
            | Ok v =>
                and_then ([Line color i v], Returned)
                         (print_segment_loop grundy_values start period rest)
            | Raise e => ([], Raised (Subscripting e))
            | Diverge => ([], Unfinished)
            end
        | Raise e => ([], Raised (Subscripting e))
        | Diverge => ([], Unfinished)
        end
  end.

(** ** src/utils.py *)

Module Utils.

(** Lines 32-34: the loop that fills [reachable_values]; [positions] is
    the iteration over [game_function(n)]. *)
Fixpoint collect_reachable (grundy : list Z) (positions : list Z)
    (reachable_values : gset Z) : outcome (gset Z) :=
  match positions with
  | [] => Ok reachable_values
  | next_pos :: rest =>
      v ← getitem grundy next_pos;
      collect_reachable grundy rest ({[v]} ∪ reachable_values)
  end.

(** Lines 36-38: [while g in reachable_values: g += 1], with an
    iteration budget. *)
Fixpoint mex_loop (fuel : nat) (reachable_values : gset Z) (g : Z) : outcome Z :=
  match fuel with
  | O => Diverge
  | S fuel' =>
      if decide (g ∈ reachable_values)
      then mex_loop fuel' reachable_values (g + 1)
      else Ok g
  end.

(** Lines 32-39: the body of the [for n] loop. *)
Definition grundy_step (game_function : Z → list Z) (grundy : list Z) (n : Z)
    : outcome (list Z) :=
  reachable_values ← collect_reachable grundy (game_function n) ∅;
  g ← mex_loop (S (size reachable_values)) reachable_values 0;
  setitem grundy n g.

(** Line 31: [for n in range(1, max_n + 1)]. *)
Fixpoint grundy_loop (game_function : Z → list Z) (ns : list Z)
    (grundy : list Z) : outcome (list Z) :=
  match ns with
  | [] => Ok grundy
  | n :: rest =>
      grundy' ← grundy_step game_function grundy n;
      grundy_loop game_function rest grundy'
  end.

(** [compute_grundy_values(game_function, max_n)].  The oracle is given
    by the sequence of positions that iterating over its result yields. *)
Definition compute_grundy_values (game_function : Z → list Z) (max_n : Z)
    : outcome (list Z) :=
  grundy ← list_repeat 0 (max_n + 1);
  grundy_loop game_function (range 1 (max_n + 1)) grundy.

(** Lines 66-71: the verification loop over [i]; the result is the final
    value of [is_periodic]. *)
Fixpoint pure_check (grundy : list Z) (p : Z) (indices : list Z) : outcome bool :=
  match indices with
  | [] => Ok true
  | i :: rest =>
      a ← getitem grundy i;
      b ← getitem grundy (i + p);
      if decide (a ≠ b) then Ok false else pure_check grundy p rest
  end.

(** Lines 65-73: the loop over [p]; [Some (l, p)] when the function
    returns from inside the loop, [None] when the loop runs to its end. *)
Fixpoint pure_scan_p (grundy : list Z) (n l : Z) (ps : list Z)
    : outcome (option (Z * Z)) :=
  match ps with
  | [] => Ok None
  | p :: rest =>
      is_periodic ← pure_check grundy p (range l (n - p));
      if is_periodic : bool then Ok (Some (l, p))
      else pure_scan_p grundy n l rest
  end.

(** Lines 64-73: the loop over [l]. *)
Fixpoint pure_scan_l (grundy : list Z) (n max_p : Z) (ls : list Z)
    : outcome (option (Z * Z)) :=
  match ls with
  | [] => Ok None
  | l :: rest =>
      r ← pure_scan_p grundy n l (range 1 (Z.min (max_p + 1) (n - l)));
      match r with
      | Some w => Ok (Some w)
      | None => pure_scan_l grundy n max_p rest
      end
  end.

(** [detect_pure_period(grundy, max_p=None)]: [(l, p)] or [(None, None)]. *)
Definition detect_pure_period (grundy : list Z) (max_p : option Z)
    : outcome (option Z * option Z) :=
  let n := Z.of_nat (length grundy) in
  let max_p := match max_p with None => n `div` 2 | Some m => m end in
  r ← pure_scan_l grundy n max_p (range 0 n);
  match r with
  | Some (l, p) => Ok (Some l, Some p)
  | None => Ok (None, None)
  end.

(** Lines 105-108: the verification loop over [i]. *)
Fixpoint arith_check (grundy : list Z) (p d_candidate : Z) (indices : list Z)
    : outcome bool :=
  match indices with
  | [] => Ok true
  | i :: rest =>
      a ← getitem grundy i;
      b ← getitem grundy (i + p);
      if decide (a + d_candidate ≠ b) then Ok false
      else arith_check grundy p d_candidate rest
  end.

(** Lines 102-110: the loop over [p]. *)
Fixpoint arith_scan_p (grundy : list Z) (n l : Z) (ps : list Z)
    : outcome (option (Z * Z * Z)) :=
  match ps with
  | [] => Ok None
  | p :: rest =>
      hi ← getitem grundy (l + p);
      lo ← getitem grundy l;
      let d_candidate := hi - lo in
      is_arith_periodic ← arith_check grundy p d_candidate (range l (n - p));
      if is_arith_periodic : bool then Ok (Some (l, p, d_candidate))
      else arith_scan_p grundy n l rest
  end.

(** Lines 101-110: the loop over [l]. *)
Fixpoint arith_scan_l (grundy : list Z) (n max_p : Z) (ls : list Z)
    : outcome (option (Z * Z * Z)) :=
  match ls with
  | [] => Ok None
  | l :: rest =>
      r ← arith_scan_p grundy n l (range 1 (Z.min (max_p + 1) (n - l)));
      match r with
      | Some w => Ok (Some w)
      | None => arith_scan_l grundy n max_p rest
      end
  end.

(** [detect_arithmetic_period(grundy, max_p=None, max_d=None)]:
    [(l, p, d)] or [(None, None, None)].  [max_d] is accepted and never
    read. *)
Definition detect_arithmetic_period (grundy : list Z) (max_p max_d : option Z)
    : outcome (option Z * option Z * option Z) :=
  let n := Z.of_nat (length grundy) in
  let max_p := match max_p with None => n `div` 2 | Some m => m end in
  r ← arith_scan_l grundy n max_p (range 0 n);
  match r with
  | Some (l, p, d) => Ok (Some l, Some p, Some d)
  | None => Ok (None, None, None)
  end.

(** [print_periodic_segment(grundy_values, start, period, num_periods=3)];
    [start] and [period] are [None] when they come from a detector that
    found nothing. *)
Definition print_periodic_segment (grundy_values : list Z)
    (start period : option Z) (num_periods : Z) : printed line :=
  match period with
  | None => ([], Returned)
  | Some period =>
      let length := num_periods * period + 1 in
      match start with
      | None => ([], Raised TypeError)
      | Some start =>
          let end_ := start + length in
          let end_ := Z.min end_ (Z.of_nat (List.length grundy_values)) in
          print_segment_loop grundy_values start period (range start end_)
      end
  end.

End Utils.

(** ** src/subtraction-game.py *)

Module SubtractionGame.

(** Lines 48-51: [for m in moves: if n >= m: reachable_values.add(grundy[n - m])]. *)
Fixpoint collect_reachable (grundy : list Z) (n : Z) (moves : list Z)
    (reachable_values : gset Z) : outcome (gset Z) :=
  match moves with
  | [] => Ok reachable_values
  | m :: rest =>
      if decide (n >= m) then
        v ← getitem grundy (n - m);
        collect_reachable grundy n rest ({[v]} ∪ reachable_values)
      else collect_reachable grundy n rest reachable_values
  end.

(** Lines 53-55. *)
Fixpoint mex_loop (fuel : nat) (reachable_values : gset Z) (g : Z) : outcome Z :=
  match fuel with
  | O => Diverge
  | S fuel' =>
      if decide (g ∈ reachable_values)
      then mex_loop fuel' reachable_values (g + 1)
      else Ok g
  end.

(** Lines 48-56. *)
Definition grundy_step (moves : list Z) (grundy : list Z) (n : Z)
    : outcome (list Z) :=
  reachable_values ← collect_reachable grundy n moves ∅;
  g ← mex_loop (S (size reachable_values)) reachable_values 0;
  setitem grundy n g.

(** Line 47. *)
Fixpoint grundy_loop (moves : list Z) (ns : list Z) (grundy : list Z)
    : outcome (list Z) :=
  match ns with
  | [] => Ok grundy
  | n :: rest =>
      grundy' ← grundy_step moves grundy n;
      grundy_loop moves rest grundy'
  end.

(** [compute_grundy_values(moves, max_n)]. *)
Definition compute_grundy_values (moves : list Z) (max_n : Z) : outcome (list Z) :=
  grundy ← list_repeat 0 (max_n + 1);
  grundy_loop moves (range 1 (max_n + 1)) grundy.

(** Lines 82-87. *)
Fixpoint pure_check (grundy : list Z) (p : Z) (indices : list Z) : outcome bool :=
  match indices with
  | [] => Ok true
  | i :: rest =>
      a ← getitem grundy i;
      b ← getitem grundy (i + p);
      if decide (a ≠ b) then Ok false else pure_check grundy p rest
  end.

(** Lines 81-89. *)
Fixpoint pure_scan_p (grundy : list Z) (n l : Z) (ps : list Z)
    : outcome (option (Z * Z)) :=
  match ps with
  | [] => Ok None
  | p :: rest =>
      is_periodic ← pure_check grundy p (range l (n - p));
      if is_periodic : bool then Ok (Some (l, p))
      else pure_scan_p grundy n l rest
  end.

(** Lines 80-89. *)
Fixpoint pure_scan_l (grundy : list Z) (n max_p : Z) (ls : list Z)
    : outcome (option (Z * Z)) :=
  match ls with
  | [] => Ok None
  | l :: rest =>
      r ← pure_scan_p grundy n l (range 1 (Z.min (max_p + 1) (n - l)));
      match r with
      | Some w => Ok (Some w)
      | None => pure_scan_l grundy n max_p rest
      end
  end.

(** [detect_pure_period(grundy, max_p=None)]. *)
Definition detect_pure_period (grundy : list Z) (max_p : option Z)
    : outcome (option Z * option Z) :=
  let n := Z.of_nat (length grundy) in
  let max_p := match max_p with None => n - 1 | Some m => m end in
  r ← pure_scan_l grundy n max_p (range 0 n);
  match r with
  | Some (l, p) => Ok (Some l, Some p)
  | None => Ok (None, None)
  end.

(** Lines 121-125. *)
Fixpoint arith_check (grundy : list Z) (p d_candidate : Z) (indices : list Z)
    : outcome bool :=
  match indices with
  | [] => Ok true
  | i :: rest =>
      a ← getitem grundy i;
      b ← getitem grundy (i + p);
      if decide (a + d_candidate ≠ b) then Ok false
      else arith_check grundy p d_candidate rest
  end.

(** Lines 118-127. *)
Fixpoint arith_scan_p (grundy : list Z) (n l : Z) (ps : list Z)
    : outcome (option (Z * Z * Z)) :=
  match ps with
  | [] => Ok None
  | p :: rest =>
      hi ← getitem grundy (l + p);
      lo ← getitem grundy l;
      let d_candidate := hi - lo in
      is_arith_periodic ← arith_check grundy p d_candidate (range l (n - p));
      if is_arith_periodic : bool then Ok (Some (l, p, d_candidate))
      else arith_scan_p grundy n l rest
  end.

(** Lines 117-127. *)
Fixpoint arith_scan_l (grundy : list Z) (n max_p : Z) (ls : list Z)
    : outcome (option (Z * Z * Z)) :=
  match ls with
  | [] => Ok None
  | l :: rest =>
      r ← arith_scan_p grundy n l (range 1 (Z.min (max_p + 1) (n - l)));
      match r with
      | Some w => Ok (Some w)
      | None => arith_scan_l grundy n max_p rest
      end
  end.

(** [detect_arithmetic_period(grundy, max_p=None, max_d=None)]. *)
Definition detect_arithmetic_period (grundy : list Z) (max_p max_d : option Z)
    : outcome (option Z * option Z * option Z) :=
  let n := Z.of_nat (length grundy) in
  let max_p := match max_p with None => n - 1 | Some m => m end in
  r ← arith_scan_l grundy n max_p (range 0 n);
  match r with
  | Some (l, p, d) => Ok (Some l, Some p, Some d)
  | None => Ok (None, None, None)
  end.

(** [print_periodic_segment(grundy_values, start, period, num_periods=3)]:
    no test for [None] here, so [num_periods * period] raises on it. *)
Definition print_periodic_segment (grundy_values : list Z)
    (start period : option Z) (num_periods : Z) : printed line :=
  match period with
  | None => ([], Raised TypeError)
  | Some period =>
      let length := num_periods * period + 1 in
      match start with
      | None => ([], Raised TypeError)
      | Some start =>
          let end_ := start + length in
          let end_ := Z.min end_ (Z.of_nat (List.length grundy_values)) in
          print_segment_loop grundy_values start period (range start end_)
      end
  end.

(** What [main] prints, one constructor per [print]:
    line 158, lines 165 and 168, lines 173 and 176, and the lines of
    [print_periodic_segment]. *)
Inductive output : Type :=
  | Analyzing (moves : list Z) (max_n : Z)
  | PureFound (l_pure p_pure : option Z)
  | PureNotFound
  | ArithmeticFound (l_arith p_arith d_arith : option Z)
  | ArithmeticNotFound
  | Segment (ln : line).

Definition print_segment (grundy_values : list Z) (start period : option Z)
    : printed output :=
  let '(lines, e) := print_periodic_segment grundy_values start period 3 in
  (Segment <$> lines, e).

(** [main()], from the parsed arguments on.  [num_periods] and [max_p]
    are read from the arguments and not used. *)
Definition main (moves : list Z) (max_n : Z) (num_periods : Z)
    (max_p : option Z) : printed output :=
  and_then ([Analyzing moves max_n], Returned)
  match compute_grundy_values moves max_n with
  | Ok grundy_values =>
      match detect_pure_period grundy_values None with
      | Ok (l_pure, p_pure) =>
          and_then
            match p_pure with
            | Some _ =>
                and_then ([PureFound l_pure p_pure], Returned)
                         (print_segment grundy_values l_pure p_pure)
            | None => ([PureNotFound], Returned)
            end
            match detect_arithmetic_period grundy_values None None with
            | Ok (l_arith, p_arith, d_arith) =>
                match p_arith with
                | Some _ =>
                    and_then ([ArithmeticFound l_arith p_arith d_arith], Returned)
                             (print_segment grundy_values l_pure p_pure)
                | None => ([ArithmeticNotFound], Returned)
                end
            | Raise e => ([], Raised (Subscripting e))
            | Diverge => ([], Unfinished)
            end
      | Raise e => ([], Raised (Subscripting e))
      | Diverge => ([], Unfinished)
      end
  | Raise e => ([], Raised (Subscripting e))
  | Diverge => ([], Unfinished)
  end.

End SubtractionGame.

(** ** src/main.py *)

Module Main.

(** [get_subtraction_game_function(S)]: the oracle
    [lambda x: set(x - s for s in S if x - s >= 0)].  The builder only
    iterates over the set, so the oracle is given by that iteration. *)
Definition get_subtraction_game_function (S : list Z) : Z → list Z :=
  fun x =>
    elements (list_to_set ((fun s => x - s) <$> filter (fun s => x - s >= 0) S) : gset Z).

(** [get_allbut_game_function(S)]: the oracle
    [lambda x: set(i for i in range(1, x+1) if i not in S)], again by the
    iteration over the set. *)
Definition get_allbut_game_function (S : list Z) : Z → list Z :=
  fun x =>
    elements (list_to_set (filter (fun i => i ∉ S) (range 1 (x + 1))) : gset Z).

End Main.

(** ** Vocabulary of the properties *)

(** [len(G)]. *)
Definition seq_len (G : list Z) : Z := Z.of_nat (length G).

(** The first-hit search that both levels of the detectors' double loop
    perform: try the candidates in order, stop at the first one that
    yields a witness. *)
Fixpoint first_hit {A : Type} (attempt : Z → outcome (option A)) (xs : list Z)
    : outcome (option A) :=
  match xs with
  | [] => Ok None
  | x :: rest =>
      r ← attempt x;
      match r with
      | Some w => Ok (Some w)
      | None => first_hit attempt rest
      end
  end.

(** [g] is the minimum excludant of the set of integers [values]. *)
Definition is_mex (g : Z) (values : Z → Prop) : Prop :=
  0 ≤ g ∧ ¬ values g ∧ ∀ k, 0 ≤ k < g → values k.

(** The values [G(m)] for [m] among [positions]. *)
Definition grundy_of (G : list Z) (positions : list Z) : Z → Prop :=
  fun v => ∃ m, m ∈ positions ∧ getitem G m = Ok v.

(** The oracle reports, for every [n] in [1, max_n], only positions in
    [0, n). *)
Definition valid_oracle (game_function : Z → list Z) (max_n : Z) : Prop :=
  ∀ n m, 1 ≤ n ≤ max_n → m ∈ game_function n → 0 ≤ m < n.

(** The oracle reports, for every [n] in [1, max_n], only positions that
    are subscripts of a list of [max_n + 1] elements. *)
Definition subscript_oracle (game_function : Z → list Z) (max_n : Z) : Prop :=
  ∀ n m, 1 ≤ n ≤ max_n → m ∈ game_function n → - (max_n + 1) ≤ m ≤ max_n.

(** The positions that the loop of [SubtractionGame.compute_grundy_values]
    reads at [n]: [n - m] for every move [m] with [n >= m]. *)
Definition subtraction_positions (moves : list Z) (n : Z) : list Z :=
  (fun m => n - m) <$> filter (fun m => n >= m) moves.

(** [G(i) == G(i+p)] for every [i] in [l, len(G)-p). *)
Definition pure_periodic (G : list Z) (l p : Z) : Prop :=
  ∀ i, l ≤ i < seq_len G - p →
    ∃ v, getitem G i = Ok v ∧ getitem G (i + p) = Ok v.

(** [G(i) + d == G(i+p)] for every [i] in [l, len(G)-p). *)
Definition arith_periodic (G : list Z) (l p d : Z) : Prop :=
  ∀ i, l ≤ i < seq_len G - p →
    ∃ a b, getitem G i = Ok a ∧ getitem G (i + p) = Ok b ∧ a + d = b.

(** [d == G(l+p) - G(l)]. *)
Definition saltus (G : list Z) (l p d : Z) : Prop :=
  ∃ hi lo, getitem G (l + p) = Ok hi ∧ getitem G l = Ok lo ∧ d = hi - lo.

(** The pairs the double loop visits: [l] in [range(len(G))] and
    [1 <= p <= min(max_p, len(G)-l-1)]. *)
Definition in_bounds (G : list Z) (max_p l p : Z) : Prop :=
  0 ≤ l < seq_len G ∧ 1 ≤ p ≤ Z.min max_p (seq_len G - l - 1).

(** The order of the search: [l] ascending, then [p] ascending. *)
Definition lex_lt (l' p' l p : Z) : Prop := l' < l ∨ (l' = l ∧ p' < p).

Definition lex_le (l' p' l p : Z) : Prop := l' < l ∨ (l' = l ∧ p' ≤ p).

(** The bound in force once the default of each module is applied. *)
Definition utils_bound (G : list Z) (max_p : option Z) : Z :=
  match max_p with None => seq_len G `div` 2 | Some m => m end.

Definition subtraction_game_bound (G : list Z) (max_p : option Z) : Z :=
  match max_p with None => seq_len G - 1 | Some m => m end.

(** [(l, p)] verifies, lies within the bounds, and nothing before it in
    the search order does both. *)
Definition first_pure_witness (G : list Z) (max_p l p : Z) : Prop :=
  pure_periodic G l p ∧ in_bounds G max_p l p ∧
  ∀ l' p', in_bounds G max_p l' p' → lex_lt l' p' l p → ¬ pure_periodic G l' p'.

(** No pair within the bounds verifies. *)
Definition no_pure_witness (G : list Z) (max_p : Z) : Prop :=
  ∀ l p, in_bounds G max_p l p → ¬ pure_periodic G l p.

(** The arithmetic test at [(l, p)]: the saltus read from the first pair
    of terms verifies. *)
Definition arith_verifies (G : list Z) (l p : Z) : Prop :=
  ∃ d, saltus G l p d ∧ arith_periodic G l p d.

(** [(l, p, d)] verifies with the saltus read at [(l, p)], lies within
    the bounds, and nothing before [(l, p)] in the search order passes
    the arithmetic test. *)
Definition first_arith_witness (G : list Z) (max_p l p d : Z) : Prop :=
  saltus G l p d ∧ arith_periodic G l p d ∧ in_bounds G max_p l p ∧
  ∀ l' p', in_bounds G max_p l' p' → lex_lt l' p' l p → ¬ arith_verifies G l' p'.

(** No pair within the bounds passes the arithmetic test. *)
Definition no_arith_witness (G : list Z) (max_p : Z) : Prop :=
  ∀ l p, in_bounds G max_p l p → ¬ arith_verifies G l p.

(** The number of positions in [1, n] that are not in [S]. *)
Definition allbut_count (S : list Z) (n : Z) : Z :=
  Z.of_nat (length (filter (fun i => i ∉ S) (range 1 (n + 1)))).

(** The values the builder of [utils.py] produces on the oracle
    [get_allbut_game_function(S)]. *)
Definition allbut_value (S : list Z) (n : Z) : Z :=
  if decide (n ∈ S) then 0 else allbut_count S n.

(** ** The outcome monad *)

Lemma bind_Ok {A B : Type} (f : A → outcome B) (a : A) : (Ok a ≫= f) = f a.
Proof. reflexivity. Qed.

Lemma bind_Ok_inv {A B : Type} (f : A → outcome B) (m : outcome A) (b : B) :
  (m ≫= f) = Ok b → ∃ a, m = Ok a ∧ f a = Ok b.
Proof. destruct m as [a| |]; simpl; intros H; try discriminate. eauto. Qed.

(** ** Subscripting *)

Lemma getitem_nonneg (xs : list Z) (i : Z) :
  0 ≤ i < seq_len xs →
  ∃ v, getitem xs i = Ok v ∧ xs !! Z.to_nat i = Some v.
Proof.
  intros Hi. unfold getitem, seq_len in *.
  destruct (Z.ltb_spec i 0); [lia|].
  destruct (Z.leb_spec 0 i); [|lia].
  destruct (Z.ltb_spec i (Z.of_nat (length xs))); [|lia]. simpl.
  destruct (lookup_lt_is_Some_2 xs (Z.to_nat i)) as [v Hv]; [lia|].
  rewrite Hv. eauto.
Qed.

Lemma getitem_subscript (xs : list Z) (i : Z) :
  - seq_len xs ≤ i < seq_len xs → ∃ v, getitem xs i = Ok v.
Proof.
  intros Hi. unfold getitem, seq_len in *.
  destruct (Z.ltb_spec i 0).
  - destruct (Z.leb_spec 0 (i + Z.of_nat (length xs))); [|lia].
    destruct (Z.ltb_spec (i + Z.of_nat (length xs)) (Z.of_nat (length xs))); [|lia].
    simpl.
    destruct (lookup_lt_is_Some_2 xs (Z.to_nat (i + Z.of_nat (length xs))))
      as [v Hv]; [lia|].
    rewrite Hv. eauto.
  - destruct (getitem_nonneg xs i) as [v [Hv _]]; [unfold seq_len; lia|].
    unfold getitem in Hv. destruct (Z.ltb_spec i 0); [lia|]. eauto.
Qed.

Lemma getitem_lookup (xs : list Z) (i v : Z) :
  0 ≤ i → getitem xs i = Ok v → xs !! Z.to_nat i = Some v.
Proof.
  intros Hi. unfold getitem.
  destruct (Z.ltb_spec i 0); [lia|].
  destruct (_ && _); [|discriminate].
  destruct (xs !! Z.to_nat i); [|discriminate]. congruence.
Qed.

Lemma getitem_ext (xs ys : list Z) (i : Z) :
  0 ≤ i → length xs = length ys → xs !! Z.to_nat i = ys !! Z.to_nat i →
  getitem xs i = getitem ys i.
Proof.
  intros Hi Hlen Hlk. unfold getitem.
  destruct (Z.ltb_spec i 0); [lia|]. by rewrite Hlen, Hlk.
Qed.

Lemma setitem_nonneg (xs : list Z) (i v : Z) :
  0 ≤ i < seq_len xs → setitem xs i v = Ok (<[Z.to_nat i := v]> xs).
Proof.
  intros Hi. unfold setitem, seq_len in *.
  destruct (Z.ltb_spec i 0); [lia|].
  destruct (Z.leb_spec 0 i); [|lia].
  by destruct (Z.ltb_spec i (Z.of_nat (length xs))); [|lia].
Qed.

Lemma elem_of_range (a b x : Z) : x ∈ range a b ↔ a ≤ x < b.
Proof. unfold range. rewrite elem_of_seqZ. lia. Qed.

Lemma range_cons (a b : Z) : a < b → range a b = a :: range (a + 1) b.
Proof.
  intros H. unfold range. rewrite seqZ_cons by lia.
  f_equal. f_equal; lia.
Qed.

Lemma range_nil (a b : Z) : b ≤ a → range a b = [].
Proof. intros H. unfold range. apply seqZ_nil. lia. Qed.

(** ** The Grundy builder of [utils.py] *)

(** The [while] loop returns within its budget, and what it returns is
    the minimum excludant. *)
Lemma mex_loop_from (fuel : nat) (values : gset Z) (g : Z) :
  (size (filter (fun x : Z => (g ≤ x)%Z) values) < fuel)%nat →
  0 ≤ g → (∀ k, 0 ≤ k < g → k ∈ values) →
  ∃ r, Utils.mex_loop fuel values g = Ok r ∧ is_mex r (fun v => v ∈ values).
Proof.
  revert g. induction fuel as [|fuel IH]; intros g Hsize Hg Hbelow; [lia|].
  simpl. destruct (decide (g ∈ values)) as [Hin|Hout].
  - apply IH; [|lia|].
    + assert (filter (fun x => g + 1 ≤ x) values ⊂ filter (fun x => g ≤ x) values)
        as Hsub.
      { split.
        - intros x. rewrite !elem_of_filter. intros [? ?]. split; [lia|done].
        - intros Hback. specialize (Hback g).
          rewrite !elem_of_filter in Hback.
          destruct Hback as [? _]; [split; [lia|done]|lia]. }
      apply subset_size in Hsub. lia.
    + intros k Hk. destruct (decide (k = g)) as [->|]; [done|].
      apply Hbelow. lia.
  - exists g. split; [done|]. by split.
Qed.

Lemma mex_loop_returns (values : gset Z) :
  ∃ r, Utils.mex_loop (S (size values)) values 0 = Ok r ∧
       is_mex r (fun v => v ∈ values).
Proof.
  apply mex_loop_from; [|lia|intros; lia].
  assert (filter (fun x => 0 ≤ x) values ⊆ values) as Hsub.
  { intros x. rewrite elem_of_filter. by intros [_ ?]. }
  apply subseteq_size in Hsub. lia.
Qed.

Lemma collect_reachable_spec (grundy positions : list Z) (acc : gset Z) :
  (∀ m, m ∈ positions → - seq_len grundy ≤ m < seq_len grundy) →
  ∃ values, Utils.collect_reachable grundy positions acc = Ok values ∧
    ∀ v, v ∈ values ↔ v ∈ acc ∨ grundy_of grundy positions v.
Proof.
  revert acc. induction positions as [|m rest IH]; intros acc Hsub; simpl.
  - exists acc. split; [done|]. intros v. split; [auto|].
    intros [?|(m & Hm & _)]; [done|]. by apply elem_of_nil in Hm.
  - destruct (getitem_subscript grundy m) as [w Hw]; [apply Hsub; left|].
    rewrite Hw, bind_Ok.
    destruct (IH ({[w]} ∪ acc)) as (values & Hrun & Hval).
    { intros m' Hm'. apply Hsub. by right. }
    exists values. split; [done|]. intros v. rewrite Hval.
    rewrite elem_of_union, elem_of_singleton. unfold grundy_of. split.
    + intros [[->|?]|(m' & Hm' & Hg)]; [right|by left|right].
      * exists m. split; [left|done].
      * exists m'. split; [by right|done].
    + intros [?|(m' & Hm' & Hg)]; [left; by right|].
      apply elem_of_cons in Hm' as [->|Hm'].
      * left. left. congruence.
      * right. by exists m'.
Qed.

(** One pass of the [for n] loop: position [n] receives the minimum
    excludant of the values read in the list as it stands. *)
Lemma grundy_step_spec (game_function : Z → list Z) (grundy : list Z) (n : Z) :
  0 ≤ n < seq_len grundy →
  (∀ m, m ∈ game_function n → - seq_len grundy ≤ m < seq_len grundy) →
  ∃ g, Utils.grundy_step game_function grundy n = Ok (<[Z.to_nat n := g]> grundy) ∧
       is_mex g (grundy_of grundy (game_function n)).
Proof.
  intros Hn Hsub. unfold Utils.grundy_step.
  destruct (collect_reachable_spec grundy (game_function n) ∅ Hsub)
    as (values & -> & Hval).
  rewrite bind_Ok.
  destruct (mex_loop_returns values) as (g & -> & Hg0 & Hout & Hbelow).
  rewrite bind_Ok. exists g. split; [by apply setitem_nonneg|].
  split; [done|]. split.
  - intros Hin. apply Hout, Hval. by right.
  - intros k Hk. destruct (proj1 (Hval k) (Hbelow k Hk)) as [Hk'|]; [|done].
    by apply not_elem_of_empty in Hk'.
Qed.

(** The loop over a block of consecutive positions [a, a+k), started on
    [G0], when every position read is a subscript of the list: the loop
    returns, and it neither resizes the list nor touches anything below
    [a]. *)
Lemma grundy_loop_returns (game_function : Z → list Z) (k : nat) (a : Z)
    (G0 : list Z) :
  0 ≤ a → a + Z.of_nat k ≤ seq_len G0 →
  (∀ n m, a ≤ n < a + Z.of_nat k → m ∈ game_function n →
          - seq_len G0 ≤ m < seq_len G0) →
  ∃ G, Utils.grundy_loop game_function (seqZ a (Z.of_nat k)) G0 = Ok G ∧
       length G = length G0 ∧
       ∀ i, 0 ≤ i < a → G !! Z.to_nat i = G0 !! Z.to_nat i.
Proof.
  revert a G0. induction k as [|k IH]; intros a G0 Ha Hfit Hsub.
  - rewrite seqZ_nil by lia. simpl. by exists G0.
  - rewrite seqZ_cons by lia. simpl.
    destruct (grundy_step_spec game_function G0 a) as (g & -> & _);
      [lia|intros m Hm; apply (Hsub a); [lia|done]|].
    rewrite bind_Ok.
    replace (Z.pred (Z.of_nat (S k))) with (Z.of_nat k) by lia.
    destruct (IH (Z.succ a) (<[Z.to_nat a := g]> G0)) as (G & HG & Hlen & Hlow).
    + lia.
    + unfold seq_len in *. rewrite length_insert. lia.
    + intros n m Hn Hm. unfold seq_len in *. rewrite length_insert.
      apply (Hsub n); [lia|done].
    + exists G. split; [done|]. rewrite length_insert in Hlen. split; [done|].
      intros i Hi. rewrite Hlow by lia.
      apply list_lookup_insert_ne. lia.
Qed.

(** The same loop under an oracle that reaches strictly smaller
    positions only: every position of the block ends up holding the
    minimum excludant of the final values at the positions reported. *)
Lemma grundy_loop_mex (game_function : Z → list Z) (k : nat) (a : Z)
    (G0 : list Z) :
  0 ≤ a → a + Z.of_nat k ≤ seq_len G0 →
  (∀ n m, a ≤ n < a + Z.of_nat k → m ∈ game_function n → 0 ≤ m < n) →
  ∃ G, Utils.grundy_loop game_function (seqZ a (Z.of_nat k)) G0 = Ok G ∧
       length G = length G0 ∧
       (∀ i, 0 ≤ i < a → G !! Z.to_nat i = G0 !! Z.to_nat i) ∧
       ∀ n, a ≤ n < a + Z.of_nat k →
         ∃ g, getitem G n = Ok g ∧ is_mex g (grundy_of G (game_function n)).
Proof.
  revert a G0. induction k as [|k IH]; intros a G0 Ha Hfit Hval.
  - rewrite seqZ_nil by lia. simpl. exists G0. repeat split; try done. lia.
  - rewrite seqZ_cons by lia. simpl.
    destruct (grundy_step_spec game_function G0 a) as (g & -> & Hmex).
    { lia. }
    { intros m Hm. assert (0 ≤ m < a) by (apply (Hval a); [lia|done]). lia. }
    rewrite bind_Ok.
    replace (Z.pred (Z.of_nat (S k))) with (Z.of_nat k) by lia.
    set (G1 := <[Z.to_nat a := g]> G0) in *.
    assert (length G1 = length G0) as Hlen1 by apply length_insert.
    destruct (IH (Z.succ a) G1) as (G & HG & Hlen & Hlow & Hhigh).
    + lia.
    + unfold seq_len in *. lia.
    + intros n m Hn Hm. apply (Hval n); [lia|done].
    + exists G. split; [done|]. split; [congruence|]. split.
      * intros i Hi. rewrite Hlow by lia.
        apply list_lookup_insert_ne. lia.
      * intros n Hn. destruct (decide (n = a)) as [->|Hne].
        2:{ apply Hhigh. lia. }
        assert (∀ m, m ∈ game_function a → getitem G m = getitem G0 m) as Hsame.
        { intros m Hm. assert (0 ≤ m < a) by (apply (Hval a); [lia|done]).
          apply getitem_ext; [lia|congruence|].
          rewrite Hlow by lia. apply list_lookup_insert_ne. lia. }
        exists g. split.
        -- destruct (getitem_nonneg G a) as (g' & Hg' & Hlk).
           { unfold seq_len in *. lia. }
           rewrite Hlow in Hlk by lia. unfold G1 in Hlk.
           rewrite list_lookup_insert_eq in Hlk by (unfold seq_len in *; lia).
           congruence.
        -- destruct Hmex as (Hg0 & Hout & Hbelow). split; [done|]. split.
           ++ intros (m & Hm & Hgm). apply Hout. exists m. split; [done|].
              by rewrite <- Hsame.
           ++ intros j Hj. destruct (Hbelow j Hj) as (m & Hm & Hgm).
              exists m. split; [done|]. by rewrite Hsame.
Qed.

(** ** The Grundy builder of [subtraction-game.py] *)

(** The builder of [subtraction-game.py] is the builder of [utils.py] run
    on the positions [n - m] it reads. *)
Lemma subtraction_game_mex_loop (fuel : nat) (values : gset Z) (g : Z) :
  SubtractionGame.mex_loop fuel values g = Utils.mex_loop fuel values g.
Proof.
  revert g. induction fuel as [|fuel IH]; intros g; simpl; [done|].
  by rewrite IH.
Qed.

Lemma subtraction_game_collect (grundy : list Z) (n : Z) (moves : list Z)
    (acc : gset Z) :
  SubtractionGame.collect_reachable grundy n moves acc =
  Utils.collect_reachable grundy (subtraction_positions moves n) acc.
Proof.
  revert acc. unfold subtraction_positions.
  induction moves as [|m rest IH]; intros acc; simpl; [done|].
  rewrite filter_cons. destruct (decide (n >= m)); simpl; [|apply IH].
  destruct (getitem grundy (n - m)); simpl; [apply IH|done|done].
Qed.

Lemma subtraction_game_step (moves grundy : list Z) (n : Z) :
  SubtractionGame.grundy_step moves grundy n =
  Utils.grundy_step (subtraction_positions moves) grundy n.
Proof.
  unfold SubtractionGame.grundy_step, Utils.grundy_step.
  rewrite subtraction_game_collect.
  destruct (Utils.collect_reachable _ _ _); simpl; [|done|done].
  by rewrite subtraction_game_mex_loop.
Qed.

Lemma subtraction_game_builder (moves : list Z) (max_n : Z) :
  SubtractionGame.compute_grundy_values moves max_n =
  Utils.compute_grundy_values (subtraction_positions moves) max_n.
Proof.
  unfold SubtractionGame.compute_grundy_values, Utils.compute_grundy_values.
  destruct (list_repeat 0 (max_n + 1)) as [G0| |]; [|done..].
  rewrite !bind_Ok. revert G0.
  induction (range 1 (max_n + 1)) as [|n rest IH]; intros G0; simpl; [done|].
  rewrite subtraction_game_step.
  destruct (Utils.grundy_step _ _ _); simpl; [apply IH|done|done].
Qed.

Lemma elem_of_subtraction_positions (moves : list Z) (n x : Z) :
  x ∈ subtraction_positions moves n ↔ ∃ m, m ∈ moves ∧ n >= m ∧ x = n - m.
Proof.
  unfold subtraction_positions. rewrite list_elem_of_fmap. split.
  - intros (m & -> & Hm). apply list_elem_of_filter in Hm as [? ?]. eauto.
  - intros (m & Hm & Hge & ->). exists m. split; [done|].
    by apply list_elem_of_filter.
Qed.

Lemma subtraction_positions_valid (moves : list Z) (max_n : Z) :
  Forall (fun m => 1 ≤ m) moves →
  valid_oracle (subtraction_positions moves) max_n.
Proof.
  intros Hpos n x Hn Hx.
  apply elem_of_subtraction_positions in Hx as (m & Hm & Hge & ->).
  rewrite Forall_forall in Hpos. specialize (Hpos m Hm). lia.
Qed.

Lemma list_repeat_returns (v k : Z) :
  - 2 ^ 63 ≤ k → list_repeat v k = Ok (replicate (Z.to_nat k) v).
Proof. intros Hk. unfold list_repeat. destruct (decide (k < - 2 ^ 63)); [lia|done]. Qed.

Lemma list_repeat_overflows (v k : Z) :
  k < - 2 ^ 63 → list_repeat v k = Raise OverflowError.
Proof. intros Hk. unfold list_repeat. destruct (decide (k < - 2 ^ 63)); [done|lia]. Qed.

Lemma seq_len_list_repeat (v k : Z) :
  0 ≤ k → seq_len (replicate (Z.to_nat k) v) = k.
Proof.
  intros Hk. unfold seq_len. rewrite length_replicate. lia.
Qed.

Lemma utils_builder_mex (game_function : Z → list Z) (max_n : Z) :
  0 ≤ max_n → valid_oracle game_function max_n →
  ∃ G, Utils.compute_grundy_values game_function max_n = Ok G ∧
       ∀ n, 1 ≤ n ≤ max_n →
         ∃ g, getitem G n = Ok g ∧ is_mex g (grundy_of G (game_function n)).
Proof.
  intros Hmax Hval. unfold Utils.compute_grundy_values, range.
  rewrite list_repeat_returns, bind_Ok by lia.
  replace (max_n + 1 - 1) with (Z.of_nat (Z.to_nat max_n)) by lia.
  destruct (grundy_loop_mex game_function (Z.to_nat max_n) 1
              (replicate (Z.to_nat (max_n + 1)) 0)) as (G & HG & _ & _ & Hmex).
  - lia.
  - rewrite seq_len_list_repeat; lia.
  - intros n m Hn Hm. apply Hval; [lia|done].
  - exists G. split; [done|]. intros n Hn. apply Hmex. lia.
Qed.

(** ** Properties of the Grundy builder *)

(** C1.  For every oracle that reports, at each position [n], only
    positions in [0, n), and every [max_n >= 0], the builder returns a
    sequence [G] in which, for every [n] in [1, max_n], [G(n)] is the
    smallest non-negative integer different from [G(m)] for every [m]
    reported at [n].  In [utils.py] the oracle is [game_function]; in
    [subtraction-game.py] it is the list of moves, all positive, and the
    positions reported at [n] are the [n - m] with [n >= m]. *)
Theorem compute_grundy_values_mex (game_function : Z → list Z)
    (moves : list Z) (max_n : Z) :
  0 ≤ max_n →
  valid_oracle game_function max_n →
  Forall (fun m => 1 ≤ m) moves →
  (∃ G, Utils.compute_grundy_values game_function max_n = Ok G ∧
        ∀ n, 1 ≤ n ≤ max_n →
          ∃ g, getitem G n = Ok g ∧ is_mex g (grundy_of G (game_function n)))
  ∧
  (∃ G, SubtractionGame.compute_grundy_values moves max_n = Ok G ∧
        ∀ n, 1 ≤ n ≤ max_n →
          ∃ g, getitem G n = Ok g ∧
               is_mex g (grundy_of G (subtraction_positions moves n))).
Proof.
  intros Hmax Hval Hmoves. split.
  - by apply utils_builder_mex.
  - rewrite subtraction_game_builder.
    apply utils_builder_mex; [done|]. by apply subtraction_positions_valid.
Qed.

Lemma compute_grundy_values_mex_witness :
  (∃ G, Utils.compute_grundy_values (fun n => [n - 1]) 4 = Ok G ∧
        ∀ n, 1 ≤ n ≤ 4 →
          ∃ g, getitem G n = Ok g ∧ is_mex g (grundy_of G [n - 1]))
  ∧
  (∃ G, SubtractionGame.compute_grundy_values [1; 2] 4 = Ok G ∧
        ∀ n, 1 ≤ n ≤ 4 →
          ∃ g, getitem G n = Ok g ∧
               is_mex g (grundy_of G (subtraction_positions [1; 2] n))).
Proof.
  apply (compute_grundy_values_mex (fun n => [n - 1]) [1; 2] 4).
  - lia.
  - intros n m Hn Hm. apply list_elem_of_singleton in Hm. lia.
  - repeat constructor; lia.
Defined.

(** C7, as the code has it.  For every [max_n >= 0] and every oracle that
    reports, for [n] in [1, max_n], only subscripts of a list of
    [max_n + 1] elements, the builder returns a sequence of length
    exactly [max_n + 1] whose element at index 0 is 0. *)
Theorem compute_grundy_values_length (game_function : Z → list Z) (max_n : Z) :
  0 ≤ max_n →
  subscript_oracle game_function max_n →
  ∃ G, Utils.compute_grundy_values game_function max_n = Ok G ∧
       seq_len G = max_n + 1 ∧ getitem G 0 = Ok 0.
Proof.
  intros Hmax Hsub. unfold Utils.compute_grundy_values, range.
  rewrite list_repeat_returns, bind_Ok by lia.
  replace (max_n + 1 - 1) with (Z.of_nat (Z.to_nat max_n)) by lia.
  destruct (grundy_loop_returns game_function (Z.to_nat max_n) 1
              (replicate (Z.to_nat (max_n + 1)) 0)) as (G & HG & Hlen & Hlow).
  - lia.
  - rewrite seq_len_list_repeat; lia.
  - intros n m Hn Hm. rewrite seq_len_list_repeat by lia.
    assert (- (max_n + 1) ≤ m ≤ max_n) by (apply (Hsub n); [lia|done]). lia.
  - exists G. split; [done|].
    assert (seq_len G = max_n + 1) as HlenG.
    { unfold seq_len. rewrite Hlen. apply seq_len_list_repeat. lia. }
    split; [done|].
    destruct (getitem_nonneg G 0) as (v & Hv & Hlk); [lia|].
    rewrite Hlow in Hlk by lia.
    apply lookup_replicate in Hlk as [-> _]. done.
Qed.

Lemma compute_grundy_values_length_witness :
  ∃ G, Utils.compute_grundy_values (fun n => [n; -1]) 3 = Ok G ∧
       seq_len G = 3 + 1 ∧ getitem G 0 = Ok 0.
Proof.
  apply (compute_grundy_values_length (fun n => [n; -1]) 3).
  - lia.
  - intros n m Hn Hm.
    apply elem_of_cons in Hm as [->|Hm]; [lia|].
    apply list_elem_of_singleton in Hm. lia.
Defined.

(** C7 as stated fails: an oracle that reports a position beyond the end
    of the list makes the builder raise [IndexError] instead of returning
    a sequence. *)
Lemma compute_grundy_values_length_counterexample :
  0 ≤ 1 ∧
  Utils.compute_grundy_values (fun _ => [5]) 1 = Raise IndexError ∧
  ¬ ∃ G, Utils.compute_grundy_values (fun _ => [5]) 1 = Ok G ∧
         seq_len G = 1 + 1 ∧ getitem G 0 = Ok 0.
Proof.
  split; [lia|]. split; [reflexivity|].
  intros (G & HG & _). vm_compute in HG. discriminate.
Qed.

(** C4, as the code has it.  The builder has no check of [max_n].  For
    [max_n < 0] with [max_n + 1 >= -2^63] it returns the empty sequence:
    [[0] * (max_n + 1)] is empty, the loop over [range(1, max_n + 1)]
    does not run, and nothing is raised.  For [max_n + 1 < -2^63] the
    count of [[0] * (max_n + 1)] does not fit the index type and the
    builder raises [OverflowError] at that line. *)
Theorem compute_grundy_values_negative (game_function : Z → list Z)
    (moves : list Z) (max_n : Z) :
  max_n < 0 →
  (- 2 ^ 63 ≤ max_n + 1 →
   Utils.compute_grundy_values game_function max_n = Ok [] ∧
   SubtractionGame.compute_grundy_values moves max_n = Ok [])
  ∧
  (max_n + 1 < - 2 ^ 63 →
   Utils.compute_grundy_values game_function max_n = Raise OverflowError ∧
   SubtractionGame.compute_grundy_values moves max_n = Raise OverflowError).
Proof.
  intros Hneg.
  unfold Utils.compute_grundy_values, SubtractionGame.compute_grundy_values.
  split; intros Hfit.
  - rewrite list_repeat_returns, !bind_Ok, range_nil by lia.
    replace (Z.to_nat (max_n + 1)) with O by lia. done.
  - by rewrite list_repeat_overflows.
Qed.

Lemma compute_grundy_values_negative_witness :
  (Utils.compute_grundy_values (fun n => [n - 1]) (-3) = Ok [] ∧
   SubtractionGame.compute_grundy_values [2; 3] (-3) = Ok [])
  ∧
  (Utils.compute_grundy_values (fun n => [n - 1]) (- 2 ^ 63 - 2)
     = Raise OverflowError ∧
   SubtractionGame.compute_grundy_values [2; 3] (- 2 ^ 63 - 2)
     = Raise OverflowError).
Proof.
  split.
  - apply (compute_grundy_values_negative (fun n => [n - 1]) [2; 3] (-3)); lia.
  - apply (compute_grundy_values_negative (fun n => [n - 1]) [2; 3]
             (- 2 ^ 63 - 2)); lia.
Defined.

(** C4 as stated fails: at [max_n = -1] both builders return the empty
    list; neither raises anything there. *)
Lemma compute_grundy_values_negative_counterexample :
  -1 < 0 ∧
  Utils.compute_grundy_values (fun n => [n - 1]) (-1) = Ok [] ∧
  SubtractionGame.compute_grundy_values [2; 3] (-1) = Ok [] ∧
  ¬ (∃ e, Utils.compute_grundy_values (fun n => [n - 1]) (-1) = Raise e) ∧
  ¬ (∃ e, SubtractionGame.compute_grundy_values [2; 3] (-1) = Raise e).
Proof.
  split; [lia|]. split; [reflexivity|]. split; [reflexivity|].
  split; intros [e He]; vm_compute in He; discriminate.
Qed.

(** ** The double loop of the detectors *)

(** A first-hit search over consecutive candidates [a, a+k), when every
    attempt returns: it stops at the first candidate that hits, and every
    candidate before it missed. *)
Lemma first_hit_seqZ {A : Type} (attempt : Z → outcome (option A))
    (hit : Z → A → Prop) (miss : Z → Prop) (k : nat) (a : Z) :
  (∀ x, a ≤ x < a + Z.of_nat k →
        (∃ w, attempt x = Ok (Some w) ∧ hit x w) ∨
        (attempt x = Ok None ∧ miss x)) →
  (∃ x w, first_hit attempt (seqZ a (Z.of_nat k)) = Ok (Some w) ∧
          a ≤ x < a + Z.of_nat k ∧ hit x w ∧ ∀ y, a ≤ y < x → miss y)
  ∨ (first_hit attempt (seqZ a (Z.of_nat k)) = Ok None ∧
     ∀ y, a ≤ y < a + Z.of_nat k → miss y).
Proof.
  revert a. induction k as [|k IH]; intros a Hall.
  - right. rewrite seqZ_nil by lia. split; [done|]. intros; lia.
  - rewrite seqZ_cons by lia.
    replace (Z.pred (Z.of_nat (S k))) with (Z.of_nat k) by lia. simpl.
    destruct (Hall a) as [(w & -> & Hw)|[-> Hmiss]]; [lia| |].
    + left. exists a, w. simpl. split; [done|]. split; [lia|]. split; [done|].
      intros; lia.
    + simpl. destruct (IH (Z.succ a)) as [(x & w & Hrun & Hx & Hw & Hbefore)|[Hrun Hnone]].
      * intros x Hx. apply Hall. lia.
      * left. exists x, w. split; [done|]. split; [lia|]. split; [done|].
        intros y Hy. destruct (decide (y = a)) as [->|]; [done|].
        apply Hbefore. lia.
      * right. split; [done|]. intros y Hy.
        destruct (decide (y = a)) as [->|]; [done|]. apply Hnone. lia.
Qed.

Lemma first_hit_range {A : Type} (attempt : Z → outcome (option A))
    (hit : Z → A → Prop) (miss : Z → Prop) (a b : Z) :
  (∀ x, a ≤ x < b →
        (∃ w, attempt x = Ok (Some w) ∧ hit x w) ∨
        (attempt x = Ok None ∧ miss x)) →
  (∃ x w, first_hit attempt (range a b) = Ok (Some w) ∧
          a ≤ x < b ∧ hit x w ∧ ∀ y, a ≤ y < x → miss y)
  ∨ (first_hit attempt (range a b) = Ok None ∧ ∀ y, a ≤ y < b → miss y).
Proof.
  intros Hall. destruct (decide (a ≤ b)) as [Hab|Hab].
  - unfold range. replace (b - a) with (Z.of_nat (Z.to_nat (b - a))) by lia.
    destruct (first_hit_seqZ attempt hit miss (Z.to_nat (b - a)) a)
      as [(x & w & Hrun & Hx & Hw & Hbefore)|[Hrun Hnone]].
    + intros x Hx. apply Hall. lia.
    + left. exists x, w. repeat split; try done; lia.
    + right. split; [done|]. intros y Hy. apply Hnone. lia.
  - right. rewrite range_nil by lia. split; [done|]. intros; lia.
Qed.

(** *** Pure periodicity, [utils.py] *)

Lemma pure_check_spec (G : list Z) (p : Z) (indices : list Z) :
  0 ≤ p →
  (∀ i, i ∈ indices → 0 ≤ i ∧ i + p < seq_len G) →
  ∃ b : bool, Utils.pure_check G p indices = Ok b ∧
    (b = true ↔ ∀ i, i ∈ indices →
                  ∃ v, getitem G i = Ok v ∧ getitem G (i + p) = Ok v).
Proof.
  intros Hp. induction indices as [|i rest IH]; intros Hin; simpl.
  - exists true. split; [done|]. split; [|done].
    intros _ i Hi. by apply elem_of_nil in Hi.
  - destruct (Hin i) as [Hi0 Hip]; [left|].
    destruct (getitem_nonneg G i) as (a & Ha & _); [lia|].
    destruct (getitem_nonneg G (i + p)) as (b & Hb & _); [lia|].
    rewrite Ha, bind_Ok, Hb, bind_Ok.
    destruct (decide (a ≠ b)) as [Hne|Heq].
    + exists false. split; [done|]. split; [done|].
      intros Hall. destruct (Hall i) as (v & Hv1 & Hv2); [left|]. congruence.
    + destruct IH as (r & Hrun & Hr); [intros j Hj; apply Hin; by right|].
      exists r. split; [done|]. rewrite Hr. split.
      * intros Hall j Hj. apply elem_of_cons in Hj as [->|Hj]; [|by apply Hall].
        exists a. split; [done|]. rewrite Hb. f_equal.
        destruct (decide (a = b)); [done|contradiction].
      * intros Hall j Hj. apply Hall. by right.
Qed.

Lemma pure_check_range (G : list Z) (l p : Z) :
  0 ≤ l → 0 ≤ p →
  ∃ b : bool, Utils.pure_check G p (range l (seq_len G - p)) = Ok b ∧
    (b = true ↔ pure_periodic G l p).
Proof.
  intros Hl Hp.
  destruct (pure_check_spec G p (range l (seq_len G - p)) Hp) as (b & Hrun & Hb).
  { intros i Hi. apply elem_of_range in Hi. lia. }
  exists b. split; [done|]. rewrite Hb. unfold pure_periodic.
  split; intros H i Hi; apply H; by apply elem_of_range.
Qed.

Lemma pure_scan_p_first_hit (G : list Z) (n l : Z) (ps : list Z) :
  Utils.pure_scan_p G n l ps =
  first_hit (fun p => b ← Utils.pure_check G p (range l (n - p));
                      Ok (if b : bool then Some (l, p) else None)) ps.
Proof.
  induction ps as [|p rest IH]; simpl; [done|].
  destruct (Utils.pure_check G p (range l (n - p))) as [[|]| |]; simpl; done.
Qed.

Lemma pure_scan_l_first_hit (G : list Z) (n max_p : Z) (ls : list Z) :
  Utils.pure_scan_l G n max_p ls =
  first_hit (fun l => Utils.pure_scan_p G n l (range 1 (Z.min (max_p + 1) (n - l)))) ls.
Proof. induction ls as [|l rest IH]; simpl; [done|]. by rewrite IH. Qed.

(** The loop over [p] at a fixed [l >= 0]. *)
Lemma pure_scan_p_spec (G : list Z) (l b : Z) :
  0 ≤ l →
  (∃ p, Utils.pure_scan_p G (seq_len G) l (range 1 b) = Ok (Some (l, p)) ∧
        1 ≤ p < b ∧ pure_periodic G l p ∧
        ∀ p', 1 ≤ p' < p → ¬ pure_periodic G l p')
  ∨ (Utils.pure_scan_p G (seq_len G) l (range 1 b) = Ok None ∧
     ∀ p', 1 ≤ p' < b → ¬ pure_periodic G l p').
Proof.
  intros Hl. rewrite pure_scan_p_first_hit.
  destruct (first_hit_range
    (fun p => b ← Utils.pure_check G p (range l (seq_len G - p));
              Ok (if b : bool then Some (l, p) else None))
    (fun p w => w = (l, p) ∧ pure_periodic G l p)
    (fun p => ¬ pure_periodic G l p) 1 b)
    as [(p & w & Hrun & Hp & [-> Hper] & Hbefore)|[Hrun Hnone]].
  - intros p Hp. destruct (pure_check_range G l p) as (r & -> & Hr); [lia..|].
    rewrite bind_Ok. destruct r.
    + left. exists (l, p). split; [done|]. split; [done|]. by apply Hr.
    + right. split; [done|]. intros Hper. apply Hr in Hper. discriminate.
  - left. by exists p.
  - by right.
Qed.

(** The whole double loop. *)
Lemma pure_scan_l_spec (G : list Z) (max_p : Z) :
  (∃ l p, Utils.pure_scan_l G (seq_len G) max_p (range 0 (seq_len G)) = Ok (Some (l, p)) ∧
          first_pure_witness G max_p l p)
  ∨ (Utils.pure_scan_l G (seq_len G) max_p (range 0 (seq_len G)) = Ok None ∧
     no_pure_witness G max_p).
Proof.
  rewrite pure_scan_l_first_hit.
  destruct (first_hit_range
    (fun l => Utils.pure_scan_p G (seq_len G) l
                (range 1 (Z.min (max_p + 1) (seq_len G - l))))
    (fun l w => ∃ p, w = (l, p) ∧ in_bounds G max_p l p ∧ pure_periodic G l p ∧
                     ∀ p', 1 ≤ p' < p → ¬ pure_periodic G l p')
    (fun l => ∀ p, in_bounds G max_p l p → ¬ pure_periodic G l p)
    0 (seq_len G))
    as [(l & w & Hrun & Hl & (p & -> & Hb & Hper & Hbefore) & Hearlier)|[Hrun Hnone]].
  - intros l Hl.
    destruct (pure_scan_p_spec G l (Z.min (max_p + 1) (seq_len G - l)))
      as [(p & -> & Hp & Hper & Hbefore)|[-> Hnone]]; [lia| |].
    + left. exists (l, p). split; [done|]. exists p. split; [done|].
      split; [unfold in_bounds; lia|]. by split.
    + right. split; [done|]. intros p [_ Hp]. apply Hnone. lia.
  - left. exists l, p. split; [done|]. split; [done|]. split; [done|].
    intros l' p' Hb' [Hlt|[-> Hlt]].
    + apply Hearlier; [|done]. unfold in_bounds in Hb'. lia.
    + apply Hbefore. unfold in_bounds in Hb'. lia.
  - right. split; [done|]. intros l p Hb. apply Hnone; [|done].
    unfold in_bounds in Hb. lia.
Qed.

(** [detect_pure_period] of [utils.py] always returns: either the first
    witness of the search order, or [(None, None)] when no pair within
    the bounds verifies. *)
Lemma utils_detect_pure_period_spec (G : list Z) (max_p : option Z) :
  (∃ l p, Utils.detect_pure_period G max_p = Ok (Some l, Some p) ∧
          first_pure_witness G (utils_bound G max_p) l p)
  ∨ (Utils.detect_pure_period G max_p = Ok (None, None) ∧
     no_pure_witness G (utils_bound G max_p)).
Proof.
  unfold Utils.detect_pure_period. fold (seq_len G).
  change (match max_p with Some m => m | None => seq_len G `div` 2 end)
    with (utils_bound G max_p).
  destruct (pure_scan_l_spec G (utils_bound G max_p))
    as [(l & p & -> & Hw)|[-> Hnone]]; simpl.
  - left. by exists l, p.
  - by right.
Qed.

(** *** Arithmetic periodicity, [utils.py] *)

Lemma arith_check_spec (G : list Z) (p d : Z) (indices : list Z) :
  0 ≤ p →
  (∀ i, i ∈ indices → 0 ≤ i ∧ i + p < seq_len G) →
  ∃ b : bool, Utils.arith_check G p d indices = Ok b ∧
    (b = true ↔ ∀ i, i ∈ indices →
       ∃ x y, getitem G i = Ok x ∧ getitem G (i + p) = Ok y ∧ x + d = y).
Proof.
  intros Hp. induction indices as [|i rest IH]; intros Hin; simpl.
  - exists true. split; [done|]. split; [|done].
    intros _ i Hi. by apply elem_of_nil in Hi.
  - destruct (Hin i) as [Hi0 Hip]; [left|].
    destruct (getitem_nonneg G i) as (x & Hx & _); [lia|].
    destruct (getitem_nonneg G (i + p)) as (y & Hy & _); [lia|].
    rewrite Hx, bind_Ok, Hy, bind_Ok.
    destruct (decide (x + d ≠ y)) as [Hne|Heq].
    + exists false. split; [done|]. split; [done|].
      intros Hall. destruct (Hall i) as (x' & y' & Hx' & Hy' & Hsum); [left|].
      congruence.
    + destruct IH as (r & Hrun & Hr); [intros j Hj; apply Hin; by right|].
      exists r. split; [done|]. rewrite Hr. split.
      * intros Hall j Hj. apply elem_of_cons in Hj as [->|Hj]; [|by apply Hall].
        exists x, y. split; [done|]. split; [done|].
        destruct (decide (x + d = y)); [done|contradiction].
      * intros Hall j Hj. apply Hall. by right.
Qed.

Lemma arith_check_range (G : list Z) (l p d : Z) :
  0 ≤ l → 0 ≤ p →
  ∃ b : bool, Utils.arith_check G p d (range l (seq_len G - p)) = Ok b ∧
    (b = true ↔ arith_periodic G l p d).
Proof.
  intros Hl Hp.
  destruct (arith_check_spec G p d (range l (seq_len G - p)) Hp)
    as (b & Hrun & Hb).
  { intros i Hi. apply elem_of_range in Hi. lia. }
  exists b. split; [done|]. rewrite Hb. unfold arith_periodic.
  split; intros H i Hi; apply H; by apply elem_of_range.
Qed.

Lemma arith_scan_p_first_hit (G : list Z) (n l : Z) (ps : list Z) :
  Utils.arith_scan_p G n l ps =
  first_hit (fun p => hi ← getitem G (l + p);
                      lo ← getitem G l;
                      b ← Utils.arith_check G p (hi - lo) (range l (n - p));
                      Ok (if b : bool then Some (l, p, hi - lo) else None)) ps.
Proof.
  induction ps as [|p rest IH]; simpl; [done|].
  destruct (getitem G (l + p)) as [hi| |]; simpl; [|done|done].
  destruct (getitem G l) as [lo| |]; simpl; [|done|done].
  destruct (Utils.arith_check G p (hi - lo) (range l (n - p))) as [[|]| |];
    simpl; done.
Qed.

Lemma arith_scan_l_first_hit (G : list Z) (n max_p : Z) (ls : list Z) :
  Utils.arith_scan_l G n max_p ls =
  first_hit (fun l => Utils.arith_scan_p G n l (range 1 (Z.min (max_p + 1) (n - l)))) ls.
Proof. induction ls as [|l rest IH]; simpl; [done|]. by rewrite IH. Qed.

Lemma saltus_unique (G : list Z) (l p d d' : Z) :
  saltus G l p d → saltus G l p d' → d = d'.
Proof.
  intros (hi & lo & Hhi & Hlo & ->) (hi' & lo' & Hhi' & Hlo' & ->). congruence.
Qed.

(** The loop over [p] at a fixed [l >= 0], for candidates [p] with
    [l + p < len(G)]. *)
Lemma arith_scan_p_spec (G : list Z) (l b : Z) :
  0 ≤ l → b ≤ seq_len G - l →
  (∃ p d, Utils.arith_scan_p G (seq_len G) l (range 1 b) = Ok (Some (l, p, d)) ∧
          1 ≤ p < b ∧ saltus G l p d ∧ arith_periodic G l p d ∧
          ∀ p', 1 ≤ p' < p → ¬ arith_verifies G l p')
  ∨ (Utils.arith_scan_p G (seq_len G) l (range 1 b) = Ok None ∧
     ∀ p', 1 ≤ p' < b → ¬ arith_verifies G l p').
Proof.
  intros Hl Hb. rewrite arith_scan_p_first_hit.
  destruct (first_hit_range
    (fun p => hi ← getitem G (l + p);
              lo ← getitem G l;
              b ← Utils.arith_check G p (hi - lo) (range l (seq_len G - p));
              Ok (if b : bool then Some (l, p, hi - lo) else None))
    (fun p w => ∃ d, w = (l, p, d) ∧ saltus G l p d ∧ arith_periodic G l p d)
    (fun p => ¬ arith_verifies G l p) 1 b)
    as [(p & w & Hrun & Hp & (d & -> & Hsal & Hper) & Hbefore)|[Hrun Hnone]].
  - intros p Hp.
    destruct (getitem_nonneg G (l + p)) as (hi & Hhi & _); [lia|].
    destruct (getitem_nonneg G l) as (lo & Hlo & _); [lia|].
    rewrite Hhi, bind_Ok, Hlo, bind_Ok.
    assert (saltus G l p (hi - lo)) as Hsal by (by exists hi, lo).
    destruct (arith_check_range G l p (hi - lo)) as (r & -> & Hr); [lia..|].
    rewrite bind_Ok. destruct r.
    + left. exists (l, p, hi - lo). split; [done|]. exists (hi - lo).
      split; [done|]. split; [done|]. by apply Hr.
    + right. split; [done|]. intros (d & Hd & Hper).
      rewrite (saltus_unique G l p d (hi - lo) Hd Hsal) in Hper.
      apply Hr in Hper. discriminate.
  - left. by exists p, d.
  - by right.
Qed.

(** The whole double loop. *)
Lemma arith_scan_l_spec (G : list Z) (max_p : Z) :
  (∃ l p d, Utils.arith_scan_l G (seq_len G) max_p (range 0 (seq_len G))
              = Ok (Some (l, p, d)) ∧
            first_arith_witness G max_p l p d)
  ∨ (Utils.arith_scan_l G (seq_len G) max_p (range 0 (seq_len G)) = Ok None ∧
     no_arith_witness G max_p).
Proof.
  rewrite arith_scan_l_first_hit.
  destruct (first_hit_range
    (fun l => Utils.arith_scan_p G (seq_len G) l
                (range 1 (Z.min (max_p + 1) (seq_len G - l))))
    (fun l w => ∃ p d, w = (l, p, d) ∧ in_bounds G max_p l p ∧
                       saltus G l p d ∧ arith_periodic G l p d ∧
                       ∀ p', 1 ≤ p' < p → ¬ arith_verifies G l p')
    (fun l => ∀ p, in_bounds G max_p l p → ¬ arith_verifies G l p)
    0 (seq_len G))
    as [(l & w & Hrun & Hl & (p & d & -> & Hb & Hsal & Hper & Hbefore) & Hearlier)
       |[Hrun Hnone]].
  - intros l Hl.
    destruct (arith_scan_p_spec G l (Z.min (max_p + 1) (seq_len G - l)))
      as [(p & d & -> & Hp & Hsal & Hper & Hbefore)|[-> Hnone]]; [lia..| |].
    + left. exists (l, p, d). split; [done|]. exists p, d. split; [done|].
      split; [unfold in_bounds; lia|]. by repeat split.
    + right. split; [done|]. intros p [_ Hp]. apply Hnone. lia.
  - left. exists l, p, d. split; [done|]. repeat (split; [done|]).
    intros l' p' Hb' [Hlt|[-> Hlt]].
    + apply Hearlier; [|done]. unfold in_bounds in Hb'. lia.
    + apply Hbefore. unfold in_bounds in Hb'. lia.
  - right. split; [done|]. intros l p Hb. apply Hnone; [|done].
    unfold in_bounds in Hb. lia.
Qed.

(** [detect_arithmetic_period] of [utils.py] always returns: either the
    first witness of the search order, or [(None, None, None)] when no
    pair within the bounds passes the arithmetic test. *)
Lemma utils_detect_arithmetic_period_spec (G : list Z) (max_p max_d : option Z) :
  (∃ l p d, Utils.detect_arithmetic_period G max_p max_d
              = Ok (Some l, Some p, Some d) ∧
            first_arith_witness G (utils_bound G max_p) l p d)
  ∨ (Utils.detect_arithmetic_period G max_p max_d = Ok (None, None, None) ∧
     no_arith_witness G (utils_bound G max_p)).
Proof.
  unfold Utils.detect_arithmetic_period. fold (seq_len G).
  change (match max_p with Some m => m | None => seq_len G `div` 2 end)
    with (utils_bound G max_p).
  destruct (arith_scan_l_spec G (utils_bound G max_p))
    as [(l & p & d & -> & Hw)|[-> Hnone]]; simpl.
  - left. by exists l, p, d.
  - by right.
Qed.

(** A pure witness within the bounds passes the arithmetic test, with
    saltus 0. *)
Lemma pure_periodic_arith (G : list Z) (max_p l p : Z) :
  in_bounds G max_p l p → pure_periodic G l p →
  saltus G l p 0 ∧ arith_periodic G l p 0.
Proof.
  intros [Hl Hp] Hper. split.
  - destruct (Hper l) as (v & Hlo & Hhi); [lia|].
    exists v, v. repeat split; try done. lia.
  - intros i Hi. destruct (Hper i Hi) as (v & Hlo & Hhi).
    exists v, v. repeat split; try done. lia.
Qed.

(** *** The detectors of [subtraction-game.py] against those of [utils.py] *)

Lemma subtraction_game_pure_check (G : list Z) (p : Z) (indices : list Z) :
  SubtractionGame.pure_check G p indices = Utils.pure_check G p indices.
Proof. induction indices as [|i rest IH]; simpl; [done|]. by rewrite IH. Qed.

Lemma subtraction_game_pure_scan_p (G : list Z) (n l : Z) (ps : list Z) :
  SubtractionGame.pure_scan_p G n l ps = Utils.pure_scan_p G n l ps.
Proof.
  induction ps as [|p rest IH]; simpl; [done|].
  by rewrite subtraction_game_pure_check, IH.
Qed.

Lemma subtraction_game_pure_scan_l (G : list Z) (n max_p : Z) (ls : list Z) :
  SubtractionGame.pure_scan_l G n max_p ls = Utils.pure_scan_l G n max_p ls.
Proof.
  induction ls as [|l rest IH]; simpl; [done|].
  by rewrite subtraction_game_pure_scan_p, IH.
Qed.

Lemma subtraction_game_arith_check (G : list Z) (p d : Z) (indices : list Z) :
  SubtractionGame.arith_check G p d indices = Utils.arith_check G p d indices.
Proof. induction indices as [|i rest IH]; simpl; [done|]. by rewrite IH. Qed.

Lemma subtraction_game_arith_scan_p (G : list Z) (n l : Z) (ps : list Z) :
  SubtractionGame.arith_scan_p G n l ps = Utils.arith_scan_p G n l ps.
Proof.
  induction ps as [|p rest IH]; simpl; [done|].
  destruct (getitem G (l + p)) as [hi| |]; simpl; [|done|done].
  destruct (getitem G l) as [lo| |]; simpl; [|done|done].
  by rewrite subtraction_game_arith_check, IH.
Qed.

Lemma subtraction_game_arith_scan_l (G : list Z) (n max_p : Z) (ls : list Z) :
  SubtractionGame.arith_scan_l G n max_p ls = Utils.arith_scan_l G n max_p ls.
Proof.
  induction ls as [|l rest IH]; simpl; [done|].
  by rewrite subtraction_game_arith_scan_p, IH.
Qed.

(** Each detector run with its default is the detector of [utils.py] run
    with the bound the default stands for. *)
Lemma utils_pure_resolved (G : list Z) (max_p : option Z) :
  Utils.detect_pure_period G max_p =
  Utils.detect_pure_period G (Some (utils_bound G max_p)).
Proof. by destruct max_p. Qed.

Lemma utils_arith_resolved (G : list Z) (max_p max_d max_d' : option Z) :
  Utils.detect_arithmetic_period G max_p max_d =
  Utils.detect_arithmetic_period G (Some (utils_bound G max_p)) max_d'.
Proof. by destruct max_p. Qed.

Lemma subtraction_game_pure_resolved (G : list Z) (max_p : option Z) :
  SubtractionGame.detect_pure_period G max_p =
  Utils.detect_pure_period G (Some (subtraction_game_bound G max_p)).
Proof.
  unfold SubtractionGame.detect_pure_period, Utils.detect_pure_period.
  rewrite subtraction_game_pure_scan_l. by destruct max_p.
Qed.

Lemma subtraction_game_arith_resolved (G : list Z) (max_p max_d max_d' : option Z) :
  SubtractionGame.detect_arithmetic_period G max_p max_d =
  Utils.detect_arithmetic_period G (Some (subtraction_game_bound G max_p)) max_d'.
Proof.
  unfold SubtractionGame.detect_arithmetic_period, Utils.detect_arithmetic_period.
  rewrite subtraction_game_arith_scan_l. by destruct max_p.
Qed.

Lemma subtraction_game_detect_pure_period_spec (G : list Z) (max_p : option Z) :
  (∃ l p, SubtractionGame.detect_pure_period G max_p = Ok (Some l, Some p) ∧
          first_pure_witness G (subtraction_game_bound G max_p) l p)
  ∨ (SubtractionGame.detect_pure_period G max_p = Ok (None, None) ∧
     no_pure_witness G (subtraction_game_bound G max_p)).
Proof.
  rewrite subtraction_game_pure_resolved.
  apply (utils_detect_pure_period_spec G (Some (subtraction_game_bound G max_p))).
Qed.

Lemma subtraction_game_detect_arithmetic_period_spec (G : list Z)
    (max_p max_d : option Z) :
  (∃ l p d, SubtractionGame.detect_arithmetic_period G max_p max_d
              = Ok (Some l, Some p, Some d) ∧
            first_arith_witness G (subtraction_game_bound G max_p) l p d)
  ∨ (SubtractionGame.detect_arithmetic_period G max_p max_d
       = Ok (None, None, None) ∧
     no_arith_witness G (subtraction_game_bound G max_p)).
Proof.
  rewrite (subtraction_game_arith_resolved G max_p max_d max_d).
  apply (utils_detect_arithmetic_period_spec G
           (Some (subtraction_game_bound G max_p)) max_d).
Qed.

(** From the two-way description of a detector to the two implications
    of its contract. *)
Lemma first_witness_contract (G : list Z) (bound : Z)
    (r : outcome (option Z * option Z)) :
  (∃ l p, r = Ok (Some l, Some p) ∧ first_pure_witness G bound l p)
  ∨ (r = Ok (None, None) ∧ no_pure_witness G bound) →
  (∀ l p, r = Ok (Some l, Some p) → first_pure_witness G bound l p) ∧
  (no_pure_witness G bound → r = Ok (None, None)).
Proof.
  intros [(l0 & p0 & -> & Hw)|[-> Hnone]]; split.
  - intros l p Heq. by simplify_eq.
  - intros Hnone. destruct Hw as (Hper & Hb & _). by destruct (Hnone l0 p0).
  - intros l p Heq. discriminate.
  - done.
Qed.

(** ** Properties of the detectors *)

(** C2.  If [detect_pure_period] returns [(l, p)], then [G(i) == G(i+p)]
    for every [i] in [l, len(G)-p), [1 <= p <= min(max_p, len(G)-l-1)],
    and no pair within the bounds that comes before [(l, p)] in the order
    "[l] ascending, then [p] ascending" verifies; if no pair within the
    bounds verifies, the detector returns [(None, None)].  This holds in
    both modules, [max_p] standing for the default of the module when it
    is omitted. *)
Theorem detect_pure_period_first_witness (G : list Z) (max_p : option Z) :
  ((∀ l p, Utils.detect_pure_period G max_p = Ok (Some l, Some p) →
           first_pure_witness G (utils_bound G max_p) l p) ∧
   (no_pure_witness G (utils_bound G max_p) →
    Utils.detect_pure_period G max_p = Ok (None, None)))
  ∧
  ((∀ l p, SubtractionGame.detect_pure_period G max_p = Ok (Some l, Some p) →
           first_pure_witness G (subtraction_game_bound G max_p) l p) ∧
   (no_pure_witness G (subtraction_game_bound G max_p) →
    SubtractionGame.detect_pure_period G max_p = Ok (None, None))).
Proof.
  split; apply first_witness_contract.
  - apply utils_detect_pure_period_spec.
  - apply subtraction_game_detect_pure_period_spec.
Qed.

Lemma detect_pure_period_first_witness_witness :
  first_pure_witness [0; 1; 2; 0; 1; 2; 0] (utils_bound [0; 1; 2; 0; 1; 2; 0] None) 0 3
  ∧ SubtractionGame.detect_pure_period [0; 1] (Some 5) = Ok (None, None).
Proof.
  split.
  - apply (proj1 (proj1 (detect_pure_period_first_witness [0; 1; 2; 0; 1; 2; 0] None))).
    reflexivity.
  - apply (proj2 (proj2 (detect_pure_period_first_witness [0; 1] (Some 5)))).
    intros l p [Hl Hp] Hper.
    unfold subtraction_game_bound, seq_len in Hl, Hp. simpl in Hl, Hp.
    assert (l = 0) as -> by lia. assert (p = 1) as -> by lia.
    destruct (Hper 0) as (v & Hv0 & Hv1).
    + unfold seq_len. simpl. lia.
    + vm_compute in Hv0, Hv1. congruence.
Defined.

(** C3.  If [detect_arithmetic_period] returns [(l, p, d)], then
    [G(i) + d == G(i+p)] for every [i] in [l, len(G)-p), and
    [d == G(l+p) - G(l)]; in both modules. *)
Theorem detect_arithmetic_period_sound (G : list Z) (max_p max_d : option Z)
    (l p d : Z) :
  (Utils.detect_arithmetic_period G max_p max_d = Ok (Some l, Some p, Some d) →
   arith_periodic G l p d ∧ saltus G l p d)
  ∧
  (SubtractionGame.detect_arithmetic_period G max_p max_d
     = Ok (Some l, Some p, Some d) →
   arith_periodic G l p d ∧ saltus G l p d).
Proof.
  split; intros Hrun.
  - destruct (utils_detect_arithmetic_period_spec G max_p max_d)
      as [(l0 & p0 & d0 & Heq & Hsal & Hper & _)|[Heq _]];
      rewrite Heq in Hrun; [|discriminate].
    by simplify_eq.
  - destruct (subtraction_game_detect_arithmetic_period_spec G max_p max_d)
      as [(l0 & p0 & d0 & Heq & Hsal & Hper & _)|[Heq _]];
      rewrite Heq in Hrun; [|discriminate].
    by simplify_eq.
Qed.

Lemma detect_arithmetic_period_sound_witness :
  (arith_periodic [0; 1; 3; 4; 6; 7] 0 2 3 ∧ saltus [0; 1; 3; 4; 6; 7] 0 2 3)
  ∧ (arith_periodic [5; 0; 1; 2; 3] 1 1 1 ∧ saltus [5; 0; 1; 2; 3] 1 1 1).
Proof.
  split.
  - apply (proj1 (detect_arithmetic_period_sound [0; 1; 3; 4; 6; 7] None None 0 2 3)).
    reflexivity.
  - apply (proj2 (detect_arithmetic_period_sound [5; 0; 1; 2; 3] (Some 2) None 1 1 1)).
    reflexivity.
Defined.

(** C5.  If [detect_pure_period] of [utils.py] returns [(l, p)], then
    [detect_arithmetic_period] on the same sequence with the same [max_p]
    returns some [(l', p', d')], with [(l', p')] at or before [(l, p)] in
    the order "[l] ascending, then [p] ascending", and [d' = 0] when
    [(l', p') = (l, p)]. *)
Theorem pure_witness_bounds_arithmetic_witness (G : list Z)
    (max_p max_d : option Z) (l p : Z) :
  Utils.detect_pure_period G max_p = Ok (Some l, Some p) →
  ∃ l' p' d',
    Utils.detect_arithmetic_period G max_p max_d = Ok (Some l', Some p', Some d') ∧
    lex_le l' p' l p ∧
    (l' = l ∧ p' = p → d' = 0).
Proof.
  intros Hpure.
  assert (first_pure_witness G (utils_bound G max_p) l p) as (Hper & Hb & _).
  { destruct (utils_detect_pure_period_spec G max_p)
      as [(l0 & p0 & Heq & Hw)|[Heq _]]; rewrite Heq in Hpure; [|discriminate].
    by simplify_eq. }
  destruct (pure_periodic_arith G _ l p Hb Hper) as [Hsal0 Hper0].
  destruct (utils_detect_arithmetic_period_spec G max_p max_d)
    as [(l' & p' & d' & Heq & Hsal & Hper' & Hb' & Hfirst)|[_ Hnone]].
  - exists l', p', d'. split; [done|]. split.
    + unfold lex_le. destruct (decide (l' < l)); [by left|].
      destruct (decide (l' = l ∧ p' ≤ p)); [by right|].
      exfalso. apply (Hfirst l p Hb); [unfold lex_lt; lia|]. by exists 0.
    + intros [-> ->]. by apply (saltus_unique G l p).
  - exfalso. apply (Hnone l p Hb). by exists 0.
Qed.

Lemma pure_witness_bounds_arithmetic_witness_witness :
  ∃ l' p' d',
    Utils.detect_arithmetic_period [0; 1; 2; 2] None None
      = Ok (Some l', Some p', Some d') ∧
    lex_le l' p' 2 1 ∧
    (l' = 2 ∧ p' = 1 → d' = 0).
Proof.
  apply (pure_witness_bounds_arithmetic_witness [0; 1; 2; 2] None None 2 1).
  reflexivity.
Defined.

(** The arithmetic witness can come strictly before the pure one: on
    [0, 1, 2, 2] the pure search stops at [(2, 1)], the arithmetic one
    already at [(1, 2)] with saltus 1. *)
Example arithmetic_witness_strictly_earlier :
  Utils.detect_pure_period [0; 1; 2; 2] None = Ok (Some 2, Some 1) ∧
  Utils.detect_arithmetic_period [0; 1; 2; 2] None None
    = Ok (Some 1, Some 2, Some 1).
Proof. split; reflexivity. Qed.

(** C6.  With [max_p] supplied, each detector of [subtraction-game.py]
    returns what its namesake of [utils.py] returns.  With [max_p]
    omitted, each detector behaves as with its default supplied:
    [len(G) - 1] in [subtraction-game.py], [len(G) // 2] in [utils.py]. *)
Theorem detectors_agree_on_supplied_bound (G : list Z) (max_p : Z)
    (max_d : option Z) :
  SubtractionGame.detect_pure_period G (Some max_p)
    = Utils.detect_pure_period G (Some max_p)
  ∧ SubtractionGame.detect_arithmetic_period G (Some max_p) max_d
    = Utils.detect_arithmetic_period G (Some max_p) max_d
  ∧ SubtractionGame.detect_pure_period G None
    = SubtractionGame.detect_pure_period G (Some (seq_len G - 1))
  ∧ SubtractionGame.detect_arithmetic_period G None max_d
    = SubtractionGame.detect_arithmetic_period G (Some (seq_len G - 1)) max_d
  ∧ Utils.detect_pure_period G None
    = Utils.detect_pure_period G (Some (seq_len G `div` 2))
  ∧ Utils.detect_arithmetic_period G None max_d
    = Utils.detect_arithmetic_period G (Some (seq_len G `div` 2)) max_d.
Proof.
  split; [apply (subtraction_game_pure_resolved G (Some max_p))|].
  split; [apply (subtraction_game_arith_resolved G (Some max_p))|].
  repeat split.
Qed.

(** The two defaults are not interchangeable: on [0, 1, 2, 0] the search
    up to [len - 1 = 3] finds [(0, 3)], the search up to [len // 2 = 2]
    finds nothing. *)
Example defaults_differ :
  SubtractionGame.detect_pure_period [0; 1; 2; 0] None = Ok (Some 0, Some 3) ∧
  Utils.detect_pure_period [0; 1; 2; 0] None = Ok (None, None).
Proof. split; reflexivity. Qed.

(** C8.  For the subtraction game with [S = [1, 2]] and [max_n = 10] the
    builder returns [[0,1,2,0,1,2,0,1,2,0,1]] (from the list of moves in
    [subtraction-game.py], from the oracle of [main.py] in [utils.py]),
    and [detect_pure_period] on that sequence returns [(0, 3)]. *)
Theorem subtraction_game_1_2_scenario :
  SubtractionGame.compute_grundy_values [1; 2] 10
    = Ok [0; 1; 2; 0; 1; 2; 0; 1; 2; 0; 1]
  ∧ Utils.compute_grundy_values (Main.get_subtraction_game_function [1; 2]) 10
    = Ok [0; 1; 2; 0; 1; 2; 0; 1; 2; 0; 1]
  ∧ Utils.detect_pure_period [0; 1; 2; 0; 1; 2; 0; 1; 2; 0; 1] None
    = Ok (Some 0, Some 3)
  ∧ SubtractionGame.detect_pure_period [0; 1; 2; 0; 1; 2; 0; 1; 2; 0; 1] None
    = Ok (Some 0, Some 3).
Proof. repeat split; vm_compute; reflexivity. Qed.

(** C9.  On a sequence of length 1 [detect_pure_period] returns
    [(None, None)], whatever [max_p] is: [range(1, min(max_p + 1, 1))] is
    empty.  In both modules. *)
Theorem detect_pure_period_singleton (x : Z) (max_p : option Z) :
  Utils.detect_pure_period [x] max_p = Ok (None, None) ∧
  SubtractionGame.detect_pure_period [x] max_p = Ok (None, None).
Proof.
  assert (∀ m, Utils.detect_pure_period [x] (Some m) = Ok (None, None)) as Hutils.
  { intros m.
    destruct (utils_detect_pure_period_spec [x] (Some m))
      as [(l & p & _ & _ & [Hl Hp] & _)|[Hrun _]]; [|done].
    unfold seq_len in Hl, Hp. simpl in Hl, Hp. lia. }
  split.
  - rewrite utils_pure_resolved. apply Hutils.
  - rewrite subtraction_game_pure_resolved. apply Hutils.
Qed.

(** C10.  On the empty sequence, whatever [max_p] is,
    [detect_pure_period] returns [(None, None)] and
    [detect_arithmetic_period] returns [(None, None, None)]; nothing is
    subscripted, so no [IndexError] is raised.  In both modules. *)
Theorem detectors_on_empty_sequence (max_p max_d : option Z) :
  Utils.detect_pure_period [] max_p = Ok (None, None) ∧
  Utils.detect_arithmetic_period [] max_p max_d = Ok (None, None, None) ∧
  SubtractionGame.detect_pure_period [] max_p = Ok (None, None) ∧
  SubtractionGame.detect_arithmetic_period [] max_p max_d = Ok (None, None, None).
Proof. repeat split. Qed.

(** ** Further properties of the detectors *)

Lemma first_arith_contract (G : list Z) (bound : Z)
    (r : outcome (option Z * option Z * option Z)) :
  (∃ l p d, r = Ok (Some l, Some p, Some d) ∧ first_arith_witness G bound l p d)
  ∨ (r = Ok (None, None, None) ∧ no_arith_witness G bound) →
  (∀ l p d, r = Ok (Some l, Some p, Some d) → first_arith_witness G bound l p d) ∧
  (no_arith_witness G bound → r = Ok (None, None, None)).
Proof.
  intros [(l0 & p0 & d0 & -> & Hw)|[-> Hnone]]; split.
  - intros l p d Heq. by simplify_eq.
  - intros Hnone. destruct Hw as (Hsal & Hper & Hb & _).
    destruct (Hnone l0 p0 Hb). by exists d0.
  - intros l p d Heq. discriminate.
  - done.
Qed.

(** The detectors never raise: every subscript they take is within the
    list, whatever the sequence and the bound. *)
Theorem detectors_never_raise (G : list Z) (max_p max_d : option Z) :
  (∃ r, Utils.detect_pure_period G max_p = Ok r) ∧
  (∃ r, Utils.detect_arithmetic_period G max_p max_d = Ok r) ∧
  (∃ r, SubtractionGame.detect_pure_period G max_p = Ok r) ∧
  (∃ r, SubtractionGame.detect_arithmetic_period G max_p max_d = Ok r).
Proof.
  split; [|split; [|split]].
  - destruct (utils_detect_pure_period_spec G max_p)
      as [(l & p & -> & _)|[-> _]]; eauto.
  - destruct (utils_detect_arithmetic_period_spec G max_p max_d)
      as [(l & p & d & -> & _)|[-> _]]; eauto.
  - destruct (subtraction_game_detect_pure_period_spec G max_p)
      as [(l & p & -> & _)|[-> _]]; eauto.
  - destruct (subtraction_game_detect_arithmetic_period_spec G max_p max_d)
      as [(l & p & d & -> & _)|[-> _]]; eauto.
Qed.

(** The arithmetic detector returns the first pair of the search order
    that passes the arithmetic test, and [(None, None, None)] when no
    pair within the bounds passes it; in both modules. *)
Theorem detect_arithmetic_period_first_witness (G : list Z)
    (max_p max_d : option Z) :
  ((∀ l p d, Utils.detect_arithmetic_period G max_p max_d
               = Ok (Some l, Some p, Some d) →
             first_arith_witness G (utils_bound G max_p) l p d) ∧
   (no_arith_witness G (utils_bound G max_p) →
    Utils.detect_arithmetic_period G max_p max_d = Ok (None, None, None)))
  ∧
  ((∀ l p d, SubtractionGame.detect_arithmetic_period G max_p max_d
               = Ok (Some l, Some p, Some d) →
             first_arith_witness G (subtraction_game_bound G max_p) l p d) ∧
   (no_arith_witness G (subtraction_game_bound G max_p) →
    SubtractionGame.detect_arithmetic_period G max_p max_d
      = Ok (None, None, None))).
Proof.
  split; apply first_arith_contract.
  - apply utils_detect_arithmetic_period_spec.
  - apply subtraction_game_detect_arithmetic_period_spec.
Qed.

Lemma detect_arithmetic_period_first_witness_witness :
  first_arith_witness [0; 1; 2; 2] (utils_bound [0; 1; 2; 2] None) 1 2 1
  ∧ SubtractionGame.detect_arithmetic_period [7] (Some 3) None
      = Ok (None, None, None).
Proof.
  split.
  - apply (proj1 (proj1 (detect_arithmetic_period_first_witness
                           [0; 1; 2; 2] None None))).
    reflexivity.
  - apply (proj2 (proj2 (detect_arithmetic_period_first_witness
                           [7] (Some 3) None))).
    intros l p [Hl Hp] _.
    unfold subtraction_game_bound, seq_len in Hl, Hp. simpl in Hl, Hp. lia.
Defined.

(** The pair that always passes the arithmetic test: at the period
    [len(G) - 1 - l] the verification loop compares one pair of terms,
    the very pair the saltus was read from. *)
Lemma arith_verifies_last (G : list Z) (l : Z) :
  0 ≤ l → l + 1 < seq_len G → arith_verifies G l (seq_len G - 1 - l).
Proof.
  intros Hl Hn.
  destruct (getitem_nonneg G l) as (lo & Hlo & _); [lia|].
  destruct (getitem_nonneg G (seq_len G - 1)) as (hi & Hhi & _); [lia|].
  exists (hi - lo). split.
  - exists hi, lo. split; [|done].
    by replace (l + (seq_len G - 1 - l)) with (seq_len G - 1) by lia.
  - intros i Hi. assert (i = l) as -> by lia. exists lo, hi.
    replace (l + (seq_len G - 1 - l)) with (seq_len G - 1) by lia.
    split; [done|]. split; [done|]. lia.
Qed.

Lemma arith_scan_finds (G : list Z) (bound : Z)
    (r : outcome (option Z * option Z * option Z)) :
  (∃ l p d, r = Ok (Some l, Some p, Some d) ∧ first_arith_witness G bound l p d)
  ∨ (r = Ok (None, None, None) ∧ no_arith_witness G bound) →
  2 ≤ seq_len G → 1 ≤ bound →
  ∃ l p d, r = Ok (Some l, Some p, Some d) ∧
           0 ≤ l ≤ Z.max 0 (seq_len G - 1 - bound).
Proof.
  intros Hspec Hn Hbound.
  set (l0 := Z.max 0 (seq_len G - 1 - bound)).
  assert (in_bounds G bound l0 (seq_len G - 1 - l0)) as Hb0
    by (unfold in_bounds, l0; lia).
  assert (arith_verifies G l0 (seq_len G - 1 - l0)) as Hv0
    by (apply arith_verifies_last; unfold l0; lia).
  destruct Hspec as [(l & p & d & -> & _ & _ & Hb & Hfirst)|[_ Hnone]].
  - exists l, p, d. split; [done|]. split; [unfold in_bounds in Hb; lia|].
    destruct (decide (l ≤ l0)) as [|Hgt]; [done|].
    destruct (Hfirst _ _ Hb0); [left; lia|done].
  - by destruct (Hnone _ _ Hb0).
Qed.

(** On a sequence of at least two elements searched with a bound of at
    least 1, the arithmetic detector always returns a witness, with a
    pre-period of at most [max(0, len(G) - 1 - max_p)]; in both modules. *)
Theorem detect_arithmetic_period_finds (G : list Z) (max_p max_d : option Z) :
  2 ≤ seq_len G →
  (1 ≤ utils_bound G max_p →
   ∃ l p d, Utils.detect_arithmetic_period G max_p max_d
              = Ok (Some l, Some p, Some d) ∧
            0 ≤ l ≤ Z.max 0 (seq_len G - 1 - utils_bound G max_p))
  ∧
  (1 ≤ subtraction_game_bound G max_p →
   ∃ l p d, SubtractionGame.detect_arithmetic_period G max_p max_d
              = Ok (Some l, Some p, Some d) ∧
            0 ≤ l ≤ Z.max 0 (seq_len G - 1 - subtraction_game_bound G max_p)).
Proof.
  intros Hn. split; intros Hbound.
  - by apply (arith_scan_finds G _ _
                (utils_detect_arithmetic_period_spec G max_p max_d)).
  - by apply (arith_scan_finds G _ _
                (subtraction_game_detect_arithmetic_period_spec G max_p max_d)).
Qed.

Lemma detect_arithmetic_period_finds_witness :
  (∃ l p d, Utils.detect_arithmetic_period [4; 0; 9; 1; 7] (Some 2) None
              = Ok (Some l, Some p, Some d) ∧ 0 ≤ l ≤ Z.max 0 (5 - 1 - 2))
  ∧
  (∃ l p d, SubtractionGame.detect_arithmetic_period [4; 0; 9; 1; 7] (Some 2) None
              = Ok (Some l, Some p, Some d) ∧ 0 ≤ l ≤ Z.max 0 (5 - 1 - 2)).
Proof.
  assert (2 ≤ seq_len [4; 0; 9; 1; 7]) as Hn by (vm_compute; discriminate).
  split.
  - apply (proj1 (detect_arithmetic_period_finds [4; 0; 9; 1; 7] (Some 2) None Hn)).
    simpl. lia.
  - apply (proj2 (detect_arithmetic_period_finds [4; 0; 9; 1; 7] (Some 2) None Hn)).
    simpl. lia.
Defined.

(** With [max_p] omitted and at least two elements, the arithmetic
    detector of [subtraction-game.py] always reports pre-period 0 (its
    default bound [len(G) - 1] admits the period [len(G) - 1] at [l = 0]),
    and that of [utils.py] always reports a witness whose pre-period is
    at most [len(G) - 1 - len(G) // 2]. *)
Theorem detect_arithmetic_period_default_finds (G : list Z) (max_d : option Z) :
  2 ≤ seq_len G →
  (∃ p d, SubtractionGame.detect_arithmetic_period G None max_d
            = Ok (Some 0, Some p, Some d))
  ∧
  (∃ l p d, Utils.detect_arithmetic_period G None max_d
              = Ok (Some l, Some p, Some d) ∧
            0 ≤ l ≤ seq_len G - 1 - seq_len G `div` 2).
Proof.
  intros Hn. split.
  - destruct (arith_scan_finds G _ _
      (subtraction_game_detect_arithmetic_period_spec G None max_d) Hn)
      as (l & p & d & Hrun & Hl); [simpl; lia|].
    simpl in Hl. assert (l = 0) as -> by lia. eauto.
  - destruct (arith_scan_finds G _ _
      (utils_detect_arithmetic_period_spec G None max_d) Hn)
      as (l & p & d & Hrun & Hl).
    { unfold utils_bound. apply Z.div_le_lower_bound; lia. }
    unfold utils_bound in Hl. exists l, p, d. split; [done|].
    assert (seq_len G `div` 2 < seq_len G)
      by (apply Z.div_lt_upper_bound; lia).
    lia.
Qed.

Lemma detect_arithmetic_period_default_finds_witness :
  (∃ p d, SubtractionGame.detect_arithmetic_period [4; 0; 9; 1; 7] None None
            = Ok (Some 0, Some p, Some d))
  ∧
  (∃ l p d, Utils.detect_arithmetic_period [4; 0; 9; 1; 7] None None
              = Ok (Some l, Some p, Some d) ∧
            0 ≤ l ≤ seq_len [4; 0; 9; 1; 7] - 1 - seq_len [4; 0; 9; 1; 7] `div` 2).
Proof.
  apply (detect_arithmetic_period_default_finds [4; 0; 9; 1; 7] None).
  vm_compute. discriminate.
Defined.

(** A pure witness exists within the bounds exactly when the last term
    of the sequence occurs again at most [max_p] places before the end. *)
Lemma pure_found_iff (G : list Z) (bound : Z) (r : outcome (option Z * option Z)) :
  (∃ l p, r = Ok (Some l, Some p) ∧ first_pure_witness G bound l p)
  ∨ (r = Ok (None, None) ∧ no_pure_witness G bound) →
  (∃ l p, r = Ok (Some l, Some p)) ↔
  (∃ p v, 1 ≤ p ≤ Z.min bound (seq_len G - 1) ∧
          getitem G (seq_len G - 1 - p) = Ok v ∧
          getitem G (seq_len G - 1) = Ok v).
Proof.
  intros Hspec. split.
  - intros (l & p & ->).
    destruct Hspec as [(l0 & p0 & Heq & Hper & [Hl Hp] & _)|[Heq _]];
      [|discriminate].
    simplify_eq. destruct (Hper (seq_len G - 1 - p0)) as (v & Hv1 & Hv2); [lia|].
    exists p0, v. split; [lia|]. split; [done|].
    by replace (seq_len G - 1 - p0 + p0) with (seq_len G - 1) in Hv2 by lia.
  - intros (p & v & Hp & Hv1 & Hv2).
    destruct Hspec as [(l0 & p0 & -> & _)|[_ Hnone]]; [eauto|].
    destruct (Hnone (seq_len G - 1 - p) p); [unfold in_bounds; lia|].
    intros i Hi. assert (i = seq_len G - 1 - p) as -> by lia.
    exists v. split; [done|].
    by replace (seq_len G - 1 - p + p) with (seq_len G - 1) by lia.
Qed.

Lemma pure_absent_otherwise (G : list Z) (bound : Z)
    (r : outcome (option Z * option Z)) :
  (∃ l p, r = Ok (Some l, Some p) ∧ first_pure_witness G bound l p)
  ∨ (r = Ok (None, None) ∧ no_pure_witness G bound) →
  ¬ (∃ p v, 1 ≤ p ≤ Z.min bound (seq_len G - 1) ∧
            getitem G (seq_len G - 1 - p) = Ok v ∧
            getitem G (seq_len G - 1) = Ok v) →
  r = Ok (None, None).
Proof.
  intros Hspec Hnot. destruct (Hspec) as [(l & p & Hrun & _)|[Hrun _]]; [|done].
  destruct Hnot. apply (pure_found_iff G bound r Hspec). eauto.
Qed.

(** [detect_pure_period] returns a witness exactly when the last term of
    the sequence occurs again at a distance [p] from the end with
    [1 <= p <= min(max_p, len(G) - 1)]; when it does not occur again
    there, the detector returns [(None, None)]; in both modules. *)
Theorem detect_pure_period_finds_iff (G : list Z) (max_p : option Z) :
  (((∃ l p, Utils.detect_pure_period G max_p = Ok (Some l, Some p)) ↔
    (∃ p v, 1 ≤ p ≤ Z.min (utils_bound G max_p) (seq_len G - 1) ∧
            getitem G (seq_len G - 1 - p) = Ok v ∧
            getitem G (seq_len G - 1) = Ok v))
   ∧
   (¬ (∃ p v, 1 ≤ p ≤ Z.min (utils_bound G max_p) (seq_len G - 1) ∧
              getitem G (seq_len G - 1 - p) = Ok v ∧
              getitem G (seq_len G - 1) = Ok v) →
    Utils.detect_pure_period G max_p = Ok (None, None)))
  ∧
  (((∃ l p, SubtractionGame.detect_pure_period G max_p = Ok (Some l, Some p)) ↔
    (∃ p v, 1 ≤ p ≤ Z.min (subtraction_game_bound G max_p) (seq_len G - 1) ∧
            getitem G (seq_len G - 1 - p) = Ok v ∧
            getitem G (seq_len G - 1) = Ok v))
   ∧
   (¬ (∃ p v, 1 ≤ p ≤ Z.min (subtraction_game_bound G max_p) (seq_len G - 1) ∧
              getitem G (seq_len G - 1 - p) = Ok v ∧
              getitem G (seq_len G - 1) = Ok v) →
    SubtractionGame.detect_pure_period G max_p = Ok (None, None))).
Proof.
  split; (split; [apply pure_found_iff|apply pure_absent_otherwise]).
  - apply utils_detect_pure_period_spec.
  - apply utils_detect_pure_period_spec.
  - apply subtraction_game_detect_pure_period_spec.
  - apply subtraction_game_detect_pure_period_spec.
Qed.

Lemma detect_pure_period_finds_iff_witness :
  (∃ l p, Utils.detect_pure_period [3; 5; 8; 5] (Some 2) = Ok (Some l, Some p))
  ∧ SubtractionGame.detect_pure_period [3; 5; 8; 5] (Some 1) = Ok (None, None).
Proof.
  split.
  - apply (proj1 (proj1 (detect_pure_period_finds_iff [3; 5; 8; 5] (Some 2)))).
    exists 2, 5. split; [unfold utils_bound, seq_len; simpl; lia|].
    split; reflexivity.
  - apply (proj2 (proj2 (detect_pure_period_finds_iff [3; 5; 8; 5] (Some 1)))).
    intros (p & v & Hp & Hv & Hlast).
    unfold subtraction_game_bound, seq_len in Hp, Hv. simpl in Hp, Hv.
    assert (p = 1) as -> by lia.
    vm_compute in Hv, Hlast. congruence.
Defined.

Lemma in_bounds_mono (G : list Z) (m m' l p : Z) :
  m ≤ m' → in_bounds G m l p → in_bounds G m' l p.
Proof. unfold in_bounds. lia. Qed.

Lemma pure_found_mono (G : list Z) (m m' l p : Z)
    (r : outcome (option Z * option Z)) :
  m ≤ m' →
  first_pure_witness G m l p →
  (∃ l' p', r = Ok (Some l', Some p') ∧ first_pure_witness G m' l' p')
  ∨ (r = Ok (None, None) ∧ no_pure_witness G m') →
  ∃ l' p', r = Ok (Some l', Some p') ∧ lex_le l' p' l p.
Proof.
  intros Hm (Hper & Hb & _) [(l' & p' & -> & _ & _ & Hfirst)|[_ Hnone]].
  - exists l', p'. split; [done|]. unfold lex_le.
    destruct (decide (l' < l)); [by left|].
    destruct (decide (l' = l ∧ p' ≤ p)); [by right|].
    destruct (Hfirst l p); [by apply (in_bounds_mono G m)|unfold lex_lt; lia|done].
  - destruct (Hnone l p); [by apply (in_bounds_mono G m)|done].
Qed.

Lemma arith_found_mono (G : list Z) (m m' l p d : Z)
    (r : outcome (option Z * option Z * option Z)) :
  m ≤ m' →
  first_arith_witness G m l p d →
  (∃ l' p' d', r = Ok (Some l', Some p', Some d') ∧
               first_arith_witness G m' l' p' d')
  ∨ (r = Ok (None, None, None) ∧ no_arith_witness G m') →
  ∃ l' p' d', r = Ok (Some l', Some p', Some d') ∧ lex_le l' p' l p.
Proof.
  intros Hm (Hsal & Hper & Hb & _).
  assert (arith_verifies G l p) as Hv by (by exists d).
  intros [(l' & p' & d' & -> & _ & _ & _ & Hfirst)|[_ Hnone]].
  - exists l', p', d'. split; [done|]. unfold lex_le.
    destruct (decide (l' < l)); [by left|].
    destruct (decide (l' = l ∧ p' ≤ p)); [by right|].
    destruct (Hfirst l p); [by apply (in_bounds_mono G m)|unfold lex_lt; lia|done].
  - destruct (Hnone l p); [by apply (in_bounds_mono G m)|done].
Qed.

Lemma utils_pure_found (G : list Z) (max_p : option Z) (l p : Z) :
  Utils.detect_pure_period G max_p = Ok (Some l, Some p) →
  first_pure_witness G (utils_bound G max_p) l p.
Proof.
  intros Hrun. destruct (utils_detect_pure_period_spec G max_p)
    as [(l0 & p0 & Heq & Hw)|[Heq _]]; rewrite Heq in Hrun; [|discriminate].
  by simplify_eq.
Qed.

Lemma utils_arith_found (G : list Z) (max_p max_d : option Z) (l p d : Z) :
  Utils.detect_arithmetic_period G max_p max_d = Ok (Some l, Some p, Some d) →
  first_arith_witness G (utils_bound G max_p) l p d.
Proof.
  intros Hrun. destruct (utils_detect_arithmetic_period_spec G max_p max_d)
    as [(l0 & p0 & d0 & Heq & Hw)|[Heq _]]; rewrite Heq in Hrun; [|discriminate].
  by simplify_eq.
Qed.

(** Searching with a larger bound never loses a witness: what either
    detector returns at the larger bound comes at or before, in the
    search order, what it returned at the smaller one. *)
Theorem detectors_larger_bound (G : list Z) (m m' : Z) (max_d : option Z)
    (l p d : Z) :
  m ≤ m' →
  (Utils.detect_pure_period G (Some m) = Ok (Some l, Some p) →
   ∃ l' p', Utils.detect_pure_period G (Some m') = Ok (Some l', Some p') ∧
            lex_le l' p' l p)
  ∧
  (Utils.detect_arithmetic_period G (Some m) max_d = Ok (Some l, Some p, Some d) →
   ∃ l' p' d', Utils.detect_arithmetic_period G (Some m') max_d
                 = Ok (Some l', Some p', Some d') ∧
               lex_le l' p' l p).
Proof.
  intros Hm. split; intros Hrun.
  - apply (pure_found_mono G m m' l p _ Hm (utils_pure_found G (Some m) l p Hrun)).
    apply (utils_detect_pure_period_spec G (Some m')).
  - apply (arith_found_mono G m m' l p d _ Hm
             (utils_arith_found G (Some m) max_d l p d Hrun)).
    apply (utils_detect_arithmetic_period_spec G (Some m') max_d).
Qed.

Lemma detectors_larger_bound_witness :
  (∃ l' p', Utils.detect_pure_period [0; 1; 2; 0; 0] (Some 3) = Ok (Some l', Some p') ∧
            lex_le l' p' 3 1)
  ∧
  (∃ l' p' d', Utils.detect_arithmetic_period [0; 1; 2; 0; 0] (Some 3) None
                 = Ok (Some l', Some p', Some d') ∧
               lex_le l' p' 3 1).
Proof.
  assert (1 ≤ 3) as Hm by lia.
  split.
  - apply (proj1 (detectors_larger_bound [0; 1; 2; 0; 0] 1 3 None 3 1 0 Hm)).
    reflexivity.
  - apply (proj2 (detectors_larger_bound [0; 1; 2; 0; 0] 1 3 None 3 1 0 Hm)).
    reflexivity.
Defined.

(** With [max_p] omitted the two modules search different windows, the
    one of [utils.py] inside the one of [subtraction-game.py]: whenever
    a detector of [utils.py] returns a witness, its namesake of
    [subtraction-game.py] returns one at or before it in the search
    order. *)
Theorem default_bounds_nested (G : list Z) (max_d : option Z) (l p d : Z) :
  (Utils.detect_pure_period G None = Ok (Some l, Some p) →
   ∃ l' p', SubtractionGame.detect_pure_period G None = Ok (Some l', Some p') ∧
            lex_le l' p' l p)
  ∧
  (Utils.detect_arithmetic_period G None max_d = Ok (Some l, Some p, Some d) →
   ∃ l' p' d', SubtractionGame.detect_arithmetic_period G None max_d
                 = Ok (Some l', Some p', Some d') ∧
               lex_le l' p' l p).
Proof.
  assert (∀ l p, in_bounds G (utils_bound G None) l p →
                 utils_bound G None ≤ subtraction_game_bound G None) as Hle.
  { intros l0 p0 [Hl Hp]. unfold utils_bound, subtraction_game_bound.
    assert (seq_len G `div` 2 < seq_len G)
      by (apply Z.div_lt_upper_bound; lia).
    lia. }
  split; intros Hrun.
  - pose proof (utils_pure_found G None l p Hrun) as Hw.
    apply (pure_found_mono G _ _ l p _ (Hle l p (proj1 (proj2 Hw))) Hw).
    apply subtraction_game_detect_pure_period_spec.
  - pose proof (utils_arith_found G None max_d l p d Hrun) as Hw.
    apply (arith_found_mono G _ _ l p d _
             (Hle l p (proj1 (proj2 (proj2 Hw)))) Hw).
    apply subtraction_game_detect_arithmetic_period_spec.
Qed.

Lemma default_bounds_nested_witness :
  (∃ l' p', SubtractionGame.detect_pure_period [0; 1; 2; 0; 7; 7] None
              = Ok (Some l', Some p') ∧ lex_le l' p' 4 1)
  ∧
  (∃ l' p' d', SubtractionGame.detect_arithmetic_period [0; 1; 2; 0; 7; 7] None None
                 = Ok (Some l', Some p', Some d') ∧ lex_le l' p' 2 3).
Proof.
  split.
  - apply (proj1 (default_bounds_nested [0; 1; 2; 0; 7; 7] None 4 1 0)).
    reflexivity.
  - apply (proj2 (default_bounds_nested [0; 1; 2; 0; 7; 7] None 2 3 5)).
    reflexivity.
Defined.

(** From [l] on, a purely periodic sequence repeats its first period. *)
Lemma pure_periodic_block (G : list Z) (l p : Z) :
  0 ≤ l → 1 ≤ p → pure_periodic G l p →
  ∀ i, l ≤ i < seq_len G →
    ∃ v, getitem G i = Ok v ∧ getitem G (l + (i - l) `mod` p) = Ok v.
Proof.
  intros Hl Hp Hper i Hi.
  remember (Z.to_nat (i - l)) as k eqn:Hk. revert i Hi Hk.
  induction k as [k IH] using lt_wf_ind. intros i Hi Hk.
  destruct (decide (i < l + p)) as [Hsmall|Hbig].
  - rewrite Z.mod_small by lia. replace (l + (i - l)) with i by lia.
    destruct (getitem_nonneg G i) as (v & Hv & _); [lia|]. eauto.
  - destruct (Hper (i - p)) as (v & Hv1 & Hv2); [lia|].
    replace (i - p + p) with i in Hv2 by lia.
    destruct (IH (Z.to_nat (i - p - l))) with (i := i - p)
      as (w & Hw1 & Hw2); [lia|lia|done|].
    exists v. split; [done|].
    replace (i - l) with (i - p - l + 1 * p) by lia.
    rewrite Z_mod_plus_full. congruence.
Qed.

(** From [l] on, an arithmetically periodic sequence is its first period
    shifted by the saltus once per period elapsed. *)
Lemma arith_periodic_block (G : list Z) (l p d : Z) :
  0 ≤ l → 1 ≤ p → arith_periodic G l p d →
  ∀ i, l ≤ i < seq_len G →
    ∃ v, getitem G (l + (i - l) `mod` p) = Ok v ∧
         getitem G i = Ok (v + d * ((i - l) `div` p)).
Proof.
  intros Hl Hp Hper i Hi.
  remember (Z.to_nat (i - l)) as k eqn:Hk. revert i Hi Hk.
  induction k as [k IH] using lt_wf_ind. intros i Hi Hk.
  destruct (decide (i < l + p)) as [Hsmall|Hbig].
  - rewrite Z.mod_small, Z.div_small by lia.
    replace (l + (i - l)) with i by lia.
    destruct (getitem_nonneg G i) as (v & Hv & _); [lia|].
    exists v. split; [done|]. rewrite Hv. f_equal. lia.
  - destruct (Hper (i - p)) as (a & b & Ha & Hb & Hsum); [lia|].
    replace (i - p + p) with i in Hb by lia.
    destruct (IH (Z.to_nat (i - p - l))) with (i := i - p)
      as (v & Hv1 & Hv2); [lia|lia|done|].
    exists v.
    replace (i - l) with (i - p - l + 1 * p) by lia.
    rewrite Z_mod_plus_full, Z.div_add by lia.
    split; [done|]. rewrite Hb. f_equal.
    assert (a = v + d * ((i - p - l) `div` p)) by congruence. lia.
Qed.

(** A witness [(l, p)] returned by [detect_pure_period] describes the
    whole tail: every term from [l] on equals the term of the first
    period at the same offset, [G(i) == G(l + (i - l) % p)]; in both
    modules. *)
Theorem detect_pure_period_tail (G : list Z) (max_p : option Z) (l p i : Z) :
  l ≤ i < seq_len G →
  (Utils.detect_pure_period G max_p = Ok (Some l, Some p) →
   ∃ v, getitem G i = Ok v ∧ getitem G (l + (i - l) `mod` p) = Ok v)
  ∧
  (SubtractionGame.detect_pure_period G max_p = Ok (Some l, Some p) →
   ∃ v, getitem G i = Ok v ∧ getitem G (l + (i - l) `mod` p) = Ok v).
Proof.
  intros Hi. split; intros Hrun.
  - destruct (utils_pure_found G max_p l p Hrun) as (Hper & [Hl Hp] & _).
    apply pure_periodic_block; [lia|lia|done|done].
  - rewrite subtraction_game_pure_resolved in Hrun.
    destruct (utils_pure_found G _ l p Hrun) as (Hper & [Hl Hp] & _).
    apply pure_periodic_block; [lia|lia|done|done].
Qed.

Lemma detect_pure_period_tail_witness :
  ∃ v, getitem [9; 0; 1; 2; 0; 1; 2; 0] 7 = Ok v ∧
       getitem [9; 0; 1; 2; 0; 1; 2; 0] (1 + (7 - 1) `mod` 3) = Ok v.
Proof.
  apply (proj1 (detect_pure_period_tail [9; 0; 1; 2; 0; 1; 2; 0] None 1 3 7
                  ltac:(unfold seq_len; simpl; lia))).
  reflexivity.
Defined.

(** A witness [(l, p, d)] returned by [detect_arithmetic_period]
    describes the whole tail: [G(i) == G(l + (i - l) % p) + d * ((i - l) // p)]
    for every [i] from [l] on; in both modules. *)
Theorem detect_arithmetic_period_tail (G : list Z) (max_p max_d : option Z)
    (l p d i : Z) :
  l ≤ i < seq_len G →
  (Utils.detect_arithmetic_period G max_p max_d = Ok (Some l, Some p, Some d) →
   ∃ v, getitem G (l + (i - l) `mod` p) = Ok v ∧
        getitem G i = Ok (v + d * ((i - l) `div` p)))
  ∧
  (SubtractionGame.detect_arithmetic_period G max_p max_d
     = Ok (Some l, Some p, Some d) →
   ∃ v, getitem G (l + (i - l) `mod` p) = Ok v ∧
        getitem G i = Ok (v + d * ((i - l) `div` p))).
Proof.
  intros Hi. split; intros Hrun.
  - destruct (utils_arith_found G max_p max_d l p d Hrun)
      as (_ & Hper & [Hl Hp] & _).
    apply arith_periodic_block; [lia|lia|done|done].
  - rewrite (subtraction_game_arith_resolved G max_p max_d max_d) in Hrun.
    destruct (utils_arith_found G _ max_d l p d Hrun)
      as (_ & Hper & [Hl Hp] & _).
    apply arith_periodic_block; [lia|lia|done|done].
Qed.

Lemma detect_arithmetic_period_tail_witness :
  ∃ v, getitem [0; 1; 3; 4; 6; 7] (0 + (5 - 0) `mod` 2) = Ok v ∧
       getitem [0; 1; 3; 4; 6; 7] 5 = Ok (v + 3 * ((5 - 0) `div` 2)).
Proof.
  apply (proj1 (detect_arithmetic_period_tail [0; 1; 3; 4; 6; 7] None None 0 2 3 5
                  ltac:(unfold seq_len; simpl; lia))).
  reflexivity.
Defined.

(** ** Further properties of the Grundy builder *)

Lemma is_mex_unique (g g' : Z) (values : Z → Prop) :
  is_mex g values → is_mex g' values → g = g'.
Proof.
  intros (Hg & Hout & Hbelow) (Hg' & Hout' & Hbelow').
  destruct (Z.lt_trichotomy g g') as [Hlt|[Heq|Hgt]]; [|done|].
  - destruct Hout. apply Hbelow'. lia.
  - destruct Hout'. apply Hbelow. lia.
Qed.

Lemma is_mex_ext (g : Z) (values values' : Z → Prop) :
  (∀ v, values v ↔ values' v) → is_mex g values → is_mex g values'.
Proof.
  intros Hext (Hg & Hout & Hbelow). split; [done|]. split.
  - by rewrite <- Hext.
  - intros k Hk. apply Hext. by apply Hbelow.
Qed.

Lemma getitem_cases (xs : list Z) (i : Z) :
  (∃ v, getitem xs i = Ok v ∧ - seq_len xs ≤ i < seq_len xs)
  ∨ (getitem xs i = Raise IndexError ∧ ¬ (- seq_len xs ≤ i < seq_len xs)).
Proof.
  destruct (decide (- seq_len xs ≤ i < seq_len xs)) as [Hin|Hout].
  - left. destruct (getitem_subscript xs i Hin) as [v Hv]. eauto.
  - right. split; [|done]. unfold getitem, seq_len in *.
    destruct (Z.ltb_spec i 0).
    + destruct (Z.leb_spec 0 (i + Z.of_nat (length xs))); [lia|done].
    + destruct (Z.leb_spec 0 i); [|lia].
      destruct (Z.ltb_spec i (Z.of_nat (length xs))); [lia|done].
Qed.

Lemma getitem_insert_eq (xs : list Z) (i v : Z) :
  0 ≤ i < seq_len xs → getitem (<[Z.to_nat i := v]> xs) i = Ok v.
Proof.
  intros Hi.
  destruct (getitem_nonneg (<[Z.to_nat i := v]> xs) i) as (w & Hw & Hlk).
  { unfold seq_len in *. rewrite length_insert. lia. }
  rewrite list_lookup_insert_eq in Hlk by (unfold seq_len in *; lia).
  congruence.
Qed.

Lemma getitem_insert_ne (xs : list Z) (i j v : Z) :
  0 ≤ i → 0 ≤ j → i ≠ j →
  getitem (<[Z.to_nat i := v]> xs) j = getitem xs j.
Proof.
  intros Hi Hj Hne. apply getitem_ext; [done|apply length_insert|].
  apply list_lookup_insert_ne. lia.
Qed.

(** The loop followed through a closed form [c]: if, on every list
    that holds [c] below [n] and 0 from [n] on, position [n] reads only
    subscripts of the list and [c n] is the minimum excludant of what it
    reads, then the loop returns the list that holds [c] on the whole
    block. *)
Lemma grundy_loop_closed_form (game_function : Z → list Z) (c : Z → Z)
    (k : nat) (a : Z) (G0 : list Z) :
  0 ≤ a → a + Z.of_nat k ≤ seq_len G0 →
  (∀ n G, a ≤ n < a + Z.of_nat k → length G = length G0 →
     (∀ i, 0 ≤ i < n → getitem G i = Ok (c i)) →
     (∀ i, n ≤ i < seq_len G0 → getitem G i = Ok 0) →
     (∀ m, m ∈ game_function n → - seq_len G0 ≤ m < seq_len G0) ∧
     is_mex (c n) (grundy_of G (game_function n))) →
  (∀ i, 0 ≤ i < a → getitem G0 i = Ok (c i)) →
  (∀ i, a ≤ i < seq_len G0 → getitem G0 i = Ok 0) →
  ∃ G, Utils.grundy_loop game_function (seqZ a (Z.of_nat k)) G0 = Ok G ∧
       length G = length G0 ∧
       (∀ i, 0 ≤ i < a + Z.of_nat k → getitem G i = Ok (c i)) ∧
       (∀ i, a + Z.of_nat k ≤ i < seq_len G0 → getitem G i = Ok 0).
Proof.
  revert a G0. induction k as [|k IH]; intros a G0 Ha Hfit Hstep Hlow Hhigh.
  - rewrite seqZ_nil by lia. simpl. exists G0. split; [done|]. split; [done|].
    split; intros i Hi; [apply Hlow|apply Hhigh]; lia.
  - rewrite seqZ_cons by lia. simpl.
    destruct (Hstep a G0) as [Hsub Hmex]; [lia|done|done|done|].
    destruct (grundy_step_spec game_function G0 a) as (g & -> & Hg);
      [lia|done|].
    rewrite (is_mex_unique g (c a) _ Hg Hmex). rewrite bind_Ok.
    replace (Z.pred (Z.of_nat (S k))) with (Z.of_nat k) by lia.
    set (G1 := <[Z.to_nat a := c a]> G0).
    assert (length G1 = length G0) as Hlen1 by apply length_insert.
    assert (seq_len G1 = seq_len G0) as Hseq1 by (unfold seq_len; congruence).
    destruct (IH (Z.succ a) G1) as (G & HG & Hlen & Hl & Hh).
    + lia.
    + lia.
    + intros n G Hn HlenG Hbelow Hzero. rewrite Hseq1.
      apply Hstep; [lia|congruence|done|].
      intros i Hi. apply Hzero. lia.
    + intros i Hi. destruct (decide (i = a)) as [->|Hne].
      * apply getitem_insert_eq. lia.
      * unfold G1. rewrite getitem_insert_ne by lia. apply Hlow. lia.
    + intros i Hi. unfold G1. rewrite getitem_insert_ne by lia.
      apply Hhigh. lia.
    + exists G. split; [done|]. split; [congruence|]. split.
      * intros i Hi. apply Hl. lia.
      * intros i Hi. apply Hh. lia.
Qed.

Lemma getitem_list_repeat (k i : Z) :
  0 ≤ i < k → getitem (replicate (Z.to_nat k) 0) i = Ok 0.
Proof.
  intros Hi.
  destruct (getitem_nonneg (replicate (Z.to_nat k) 0) i) as (v & Hv & Hlk).
  { rewrite seq_len_list_repeat; lia. }
  apply lookup_replicate in Hlk as [-> _]. done.
Qed.

(** The builder followed through a closed form. *)
Lemma utils_builder_closed_form (game_function : Z → list Z) (c : Z → Z)
    (max_n : Z) :
  0 ≤ max_n → c 0 = 0 →
  (∀ n G, 1 ≤ n ≤ max_n → seq_len G = max_n + 1 →
     (∀ i, 0 ≤ i < n → getitem G i = Ok (c i)) →
     (∀ i, n ≤ i ≤ max_n → getitem G i = Ok 0) →
     (∀ m, m ∈ game_function n → - (max_n + 1) ≤ m ≤ max_n) ∧
     is_mex (c n) (grundy_of G (game_function n))) →
  ∃ G, Utils.compute_grundy_values game_function max_n = Ok G ∧
       seq_len G = max_n + 1 ∧
       ∀ n, 0 ≤ n ≤ max_n → getitem G n = Ok (c n).
Proof.
  intros Hmax Hc0 Hstep. unfold Utils.compute_grundy_values, range.
  rewrite list_repeat_returns, bind_Ok by lia.
  replace (max_n + 1 - 1) with (Z.of_nat (Z.to_nat max_n)) by lia.
  pose proof (seq_len_list_repeat 0 (max_n + 1) ltac:(lia)) as Hlen0.
  destruct (grundy_loop_closed_form game_function c (Z.to_nat max_n) 1
              (replicate (Z.to_nat (max_n + 1)) 0)) as (G & HG & Hlen & Hl & _).
  - lia.
  - lia.
  - intros n G Hn HlenG Hbelow Hzero. rewrite Hlen0.
    destruct (Hstep n G) as [Hsub Hmex].
    + lia.
    + unfold seq_len in *. lia.
    + done.
    + intros i Hi. apply Hzero. lia.
    + split; [|done]. intros m Hm. specialize (Hsub m Hm). lia.
  - intros i Hi. assert (i = 0) as -> by lia. rewrite Hc0.
    apply getitem_list_repeat. lia.
  - intros i Hi. apply getitem_list_repeat. lia.
  - exists G. split; [done|]. split; [unfold seq_len in *; lia|].
    intros n Hn. apply Hl. lia.
Qed.

(** What the loop that fills [reachable_values] returns in general:
    the set of values read when every position is a subscript of the
    list, [IndexError] otherwise. *)
Lemma collect_reachable_cases (grundy positions : list Z) (acc : gset Z) :
  (∃ values, Utils.collect_reachable grundy positions acc = Ok values ∧
     (∀ m, m ∈ positions → - seq_len grundy ≤ m < seq_len grundy) ∧
     ∀ v, v ∈ values ↔ v ∈ acc ∨ grundy_of grundy positions v)
  ∨ (Utils.collect_reachable grundy positions acc = Raise IndexError ∧
     ∃ m, m ∈ positions ∧ ¬ (- seq_len grundy ≤ m < seq_len grundy)).
Proof.
  destruct (decide (Forall (fun m => - seq_len grundy ≤ m < seq_len grundy)
                      positions)) as [Hall|Hsome].
  - left. rewrite Forall_forall in Hall.
    destruct (collect_reachable_spec grundy positions acc Hall)
      as (values & Hrun & Hval). eauto.
  - right. apply not_Forall_Exists in Hsome; [|intros m; apply _].
    revert acc. induction Hsome as [m rest Hm|m rest Hrest IH]; intros acc.
    + split; [|exists m; split; [left|done]]. simpl.
      destruct (getitem_cases grundy m) as [(v & _ & Hin)|[-> _]]; [done|].
      done.
    + destruct (IH acc) as [_ (m' & Hm' & Hout)].
      split; [|exists m'; split; [by right|done]]. simpl.
      destruct (getitem_cases grundy m) as [(v & -> & _)|[-> _]]; [|done].
      rewrite bind_Ok. apply IH.
Qed.

(** The builder looks at the set of positions the oracle reports, not at
    their order or multiplicity. *)
Lemma collect_reachable_ext (grundy positions positions' : list Z) :
  (∀ m, m ∈ positions ↔ m ∈ positions') →
  Utils.collect_reachable grundy positions ∅ =
  Utils.collect_reachable grundy positions' ∅.
Proof.
  intros Hext.
  destruct (collect_reachable_cases grundy positions ∅)
    as [(values & -> & Hsub & Hval)|[-> (m & Hm & Hout)]];
  destruct (collect_reachable_cases grundy positions' ∅)
    as [(values' & -> & Hsub' & Hval')|[-> (m' & Hm' & Hout')]].
  - f_equal. apply set_eq. intros v. rewrite Hval, Hval'.
    unfold grundy_of. by setoid_rewrite Hext.
  - destruct Hout'. apply Hsub. by apply Hext.
  - destruct Hout. apply Hsub'. by apply Hext.
  - done.
Qed.

Lemma grundy_loop_ext (f f' : Z → list Z) (ns G0 : list Z) :
  (∀ n m, n ∈ ns → m ∈ f n ↔ m ∈ f' n) →
  Utils.grundy_loop f ns G0 = Utils.grundy_loop f' ns G0.
Proof.
  revert G0. induction ns as [|n rest IH]; intros G0 Hext; simpl; [done|].
  unfold Utils.grundy_step.
  rewrite (collect_reachable_ext G0 (f n) (f' n)) by (intros m; apply Hext; left).
  destruct (Utils.collect_reachable G0 (f' n) ∅) as [values| |]; [|done..].
  rewrite !bind_Ok.
  destruct (Utils.mex_loop (S (size values)) values 0) as [g| |]; [|done..].
  rewrite !bind_Ok.
  destruct (setitem G0 n g) as [G1| |]; [|done..].
  rewrite !bind_Ok.
  apply IH. intros n' m Hn'. apply Hext. by right.
Qed.

(** The builder of [utils.py] returns the same outcome on two oracles
    that report the same set of positions at every [n] in [1, max_n]:
    the order and the multiplicity of the positions do not matter. *)
Theorem compute_grundy_values_ext (f f' : Z → list Z) (max_n : Z) :
  (∀ n m, 1 ≤ n ≤ max_n → m ∈ f n ↔ m ∈ f' n) →
  Utils.compute_grundy_values f max_n = Utils.compute_grundy_values f' max_n.
Proof.
  intros Hext. unfold Utils.compute_grundy_values.
  destruct (list_repeat 0 (max_n + 1)) as [G0| |]; [|done..].
  rewrite !bind_Ok. apply grundy_loop_ext.
  intros n m Hn. apply elem_of_range in Hn. apply Hext. lia.
Qed.

Lemma compute_grundy_values_ext_witness :
  Utils.compute_grundy_values (fun n => [n - 1; n - 1]) 3 =
  Utils.compute_grundy_values (fun n => [n - 1]) 3.
Proof.
  apply (compute_grundy_values_ext (fun n => [n - 1; n - 1]) (fun n => [n - 1]) 3).
  intros n m _. rewrite !elem_of_cons. rewrite elem_of_nil. tauto.
Defined.

Lemma elem_of_get_subtraction_game_function (S : list Z) (x m : Z) :
  m ∈ Main.get_subtraction_game_function S x ↔ m ∈ subtraction_positions S x.
Proof.
  unfold Main.get_subtraction_game_function, subtraction_positions.
  rewrite elem_of_elements, elem_of_list_to_set, !list_elem_of_fmap.
  split; intros (s & -> & Hs); exists s; (split; [done|]);
    apply list_elem_of_filter in Hs as [Hge Hs]; apply list_elem_of_filter;
    (split; [lia|done]).
Qed.

Lemma main_pipeline_builder (S : list Z) (max_n : Z) :
  Utils.compute_grundy_values (Main.get_subtraction_game_function S) max_n =
  SubtractionGame.compute_grundy_values S max_n.
Proof.
  rewrite subtraction_game_builder. unfold Utils.compute_grundy_values.
  destruct (list_repeat 0 (max_n + 1)) as [G0| |]; [|done..].
  rewrite !bind_Ok. apply grundy_loop_ext. intros n m _.
  apply elem_of_get_subtraction_game_function.
Qed.

(** The two programs compute the same sequence for the subtraction game:
    [compute_grundy_values] of [utils.py] on the oracle that [main.py]
    builds from [S] returns what [compute_grundy_values] of
    [subtraction-game.py] returns on the move list [S], for every [S] and
    [max_n], errors included. *)
Theorem subtraction_game_two_programs (S : list Z) (max_n : Z) :
  Utils.compute_grundy_values (Main.get_subtraction_game_function S) max_n =
  SubtractionGame.compute_grundy_values S max_n.
Proof. apply main_pipeline_builder. Qed.

(** The classical subtraction game: when the moves are exactly
    [1, ..., k], the value at [n] is [n % (k+1)]. *)
Lemma take_upto_step (moves : list Z) (k n : Z) (G : list Z) :
  0 ≤ k → 1 ≤ n →
  (∀ m, m ∈ moves ↔ 1 ≤ m ≤ k) →
  (∀ i, 0 ≤ i < n → getitem G i = Ok (i `mod` (k + 1))) →
  is_mex (n `mod` (k + 1)) (grundy_of G (subtraction_positions moves n)).
Proof.
  intros Hk Hn Hmoves Hbelow.
  pose proof (Z.mod_pos_bound n (k + 1) ltac:(lia)) as Hr.
  pose proof (Z.div_mod n (k + 1) ltac:(lia)) as Hdiv.
  split; [lia|]. split.
  - intros (x & Hx & Hgx).
    apply elem_of_subtraction_positions in Hx as (m & Hm & Hge & ->).
    apply Hmoves in Hm. rewrite Hbelow in Hgx by lia.
    assert ((n - m) `mod` (k + 1) = n `mod` (k + 1)) as Heq by congruence.
    pose proof (Z.div_mod (n - m) (k + 1) ltac:(lia)) as Hdiv'.
    rewrite Heq in Hdiv'.
    assert (m = (k + 1) * (n `div` (k + 1) - (n - m) `div` (k + 1))) as Hm'
      by lia.
    destruct (Z.le_gt_cases (n `div` (k + 1) - (n - m) `div` (k + 1)) 0); nia.
  - intros j Hj.
    assert (n `mod` (k + 1) ≤ n) by (apply Z.mod_le; lia).
    exists (n - (n `mod` (k + 1) - j)). split.
    + apply elem_of_subtraction_positions. exists (n `mod` (k + 1) - j).
      split; [apply Hmoves; lia|]. split; [lia|done].
    + rewrite Hbelow by lia. f_equal.
      replace (n - (n `mod` (k + 1) - j)) with (j + n `div` (k + 1) * (k + 1))
        by lia.
      rewrite Z_mod_plus_full. apply Z.mod_small. lia.
Qed.

(** For the subtraction game whose moves are exactly [1, ..., k], both
    programs return the sequence [G(n) = n % (k+1)]. *)
Theorem subtraction_game_take_upto (moves : list Z) (k max_n : Z) :
  0 ≤ k → 0 ≤ max_n →
  (∀ m, m ∈ moves ↔ 1 ≤ m ≤ k) →
  ∃ G, SubtractionGame.compute_grundy_values moves max_n = Ok G ∧
       Utils.compute_grundy_values (Main.get_subtraction_game_function moves) max_n
         = Ok G ∧
       seq_len G = max_n + 1 ∧
       ∀ n, 0 ≤ n ≤ max_n → getitem G n = Ok (n `mod` (k + 1)).
Proof.
  intros Hk Hmax Hmoves.
  destruct (utils_builder_closed_form (subtraction_positions moves)
              (fun n => n `mod` (k + 1)) max_n) as (G & HG & Hlen & Hval).
  - done.
  - apply Z.mod_0_l. lia.
  - intros n G Hn HlenG Hbelow _. split.
    + intros x Hx.
      apply elem_of_subtraction_positions in Hx as (m & Hm & Hge & ->).
      apply Hmoves in Hm. lia.
    + by apply take_upto_step; [|lia|..].
  - exists G. rewrite main_pipeline_builder, subtraction_game_builder. done.
Qed.

Lemma subtraction_game_take_upto_witness :
  ∃ G, SubtractionGame.compute_grundy_values [2; 1; 3] 20 = Ok G ∧
       Utils.compute_grundy_values (Main.get_subtraction_game_function [2; 1; 3]) 20
         = Ok G ∧
       seq_len G = 20 + 1 ∧
       ∀ n, 0 ≤ n ≤ 20 → getitem G n = Ok (n `mod` (3 + 1)).
Proof.
  apply (subtraction_game_take_upto [2; 1; 3] 3 20); [lia|lia|].
  intros m. rewrite !elem_of_cons, elem_of_nil. lia.
Defined.

(** The builder on a valid oracle, with the length and the first term. *)
Lemma utils_builder_valid (game_function : Z → list Z) (max_n : Z) :
  0 ≤ max_n → valid_oracle game_function max_n →
  ∃ G, Utils.compute_grundy_values game_function max_n = Ok G ∧
       seq_len G = max_n + 1 ∧ getitem G 0 = Ok 0 ∧
       ∀ n, 1 ≤ n ≤ max_n →
         ∃ g, getitem G n = Ok g ∧ is_mex g (grundy_of G (game_function n)).
Proof.
  intros Hmax Hval.
  unfold Utils.compute_grundy_values, range.
  rewrite list_repeat_returns, bind_Ok by lia.
  replace (max_n + 1 - 1) with (Z.of_nat (Z.to_nat max_n)) by lia.
  pose proof (seq_len_list_repeat 0 (max_n + 1) ltac:(lia)) as Hlen0.
  destruct (grundy_loop_mex game_function (Z.to_nat max_n) 1
              (replicate (Z.to_nat (max_n + 1)) 0)) as (G & HG & Hlen & Hlow & Hmex).
  - lia.
  - lia.
  - intros n m Hn Hm. apply Hval; [lia|done].
  - exists G. split; [done|]. split; [unfold seq_len in *; lia|]. split.
    + rewrite <- (getitem_list_repeat (max_n + 1) 0) by lia.
      apply getitem_ext; [lia|done|]. apply Hlow. lia.
    + intros n Hn. apply Hmex. lia.
Qed.

Lemma omap_length_le {A B : Type} (f : A → option B) (l : list A) :
  (length (omap f l) ≤ length l)%nat.
Proof.
  induction l as [|x l IH]; csimpl; [done|].
  destruct (f x); csimpl; lia.
Qed.

(** A minimum excludant of values read at the positions [ps] is at most
    the number of positions. *)
Lemma is_mex_le_length (G ps : list Z) (g : Z) :
  is_mex g (grundy_of G ps) → g ≤ Z.of_nat (length ps).
Proof.
  intros (Hg & _ & Hbelow).
  set (read := fun m => match getitem G m with Ok v => Some v | _ => None end).
  assert (seqZ 0 g ⊆+ omap read ps) as Hsub.
  { apply NoDup_submseteq; [apply NoDup_seqZ|].
    intros v Hv. apply elem_of_seqZ in Hv.
    destruct (Hbelow v) as (m & Hm & Hgm); [lia|].
    apply list_elem_of_omap. exists m. split; [done|].
    unfold read. by rewrite Hgm. }
  apply submseteq_length in Hsub. rewrite length_seqZ in Hsub.
  pose proof (omap_length_le read ps). lia.
Qed.

Lemma length_subtraction_positions (moves : list Z) (n : Z) :
  (length (subtraction_positions moves n) ≤ length moves)%nat.
Proof.
  unfold subtraction_positions. rewrite length_fmap. apply length_filter.
Qed.

(** On a valid oracle every value of the sequence lies between 0 and the
    number of positions the oracle reports there; for the move list of
    [subtraction-game.py], between 0 and the number of moves. *)
Theorem compute_grundy_values_bounded (game_function : Z → list Z)
    (moves : list Z) (max_n : Z) :
  0 ≤ max_n →
  valid_oracle game_function max_n →
  Forall (fun m => 1 ≤ m) moves →
  (∃ G, Utils.compute_grundy_values game_function max_n = Ok G ∧
        ∀ n, 0 ≤ n ≤ max_n →
          ∃ g, getitem G n = Ok g ∧
               0 ≤ g ≤ Z.of_nat (length (game_function n)))
  ∧
  (∃ G, SubtractionGame.compute_grundy_values moves max_n = Ok G ∧
        ∀ n, 0 ≤ n ≤ max_n →
          ∃ g, getitem G n = Ok g ∧ 0 ≤ g ≤ Z.of_nat (length moves)).
Proof.
  intros Hmax Hval Hmoves. split.
  - destruct (utils_builder_valid game_function max_n Hmax Hval)
      as (G & HG & _ & H0 & Hmex).
    exists G. split; [done|]. intros n Hn.
    destruct (decide (n = 0)) as [->|Hne]; [exists 0; split; [done|lia]|].
    destruct (Hmex n) as (g & Hgn & Hg); [lia|].
    exists g. split; [done|]. split; [apply Hg|by apply (is_mex_le_length G)].
  - rewrite subtraction_game_builder.
    destruct (utils_builder_valid (subtraction_positions moves) max_n Hmax
                (subtraction_positions_valid moves max_n Hmoves))
      as (G & HG & _ & H0 & Hmex).
    exists G. split; [done|]. intros n Hn.
    destruct (decide (n = 0)) as [->|Hne]; [exists 0; split; [done|lia]|].
    destruct (Hmex n) as (g & Hgn & Hg); [lia|].
    exists g. split; [done|]. split; [apply Hg|].
    pose proof (is_mex_le_length G _ g Hg).
    pose proof (length_subtraction_positions moves n). lia.
Qed.

Lemma compute_grundy_values_bounded_witness :
  (∃ G, Utils.compute_grundy_values (fun n => [n - 1]) 6 = Ok G ∧
        ∀ n, 0 ≤ n ≤ 6 →
          ∃ g, getitem G n = Ok g ∧ 0 ≤ g ≤ Z.of_nat (length [n - 1]))
  ∧
  (∃ G, SubtractionGame.compute_grundy_values [2; 3] 6 = Ok G ∧
        ∀ n, 0 ≤ n ≤ 6 →
          ∃ g, getitem G n = Ok g ∧ 0 ≤ g ≤ Z.of_nat (length [2; 3])).
Proof.
  apply (compute_grundy_values_bounded (fun n => [n - 1]) [2; 3] 6).
  - lia.
  - intros n m Hn Hm. apply list_elem_of_singleton in Hm. lia.
  - repeat constructor; lia.
Defined.

(** On a valid oracle the value at a position does not depend on how far
    the sequence is computed: the sequence for [max_n] is the beginning
    of the sequence for any larger [max_n']. *)
Theorem compute_grundy_values_prefix (game_function : Z → list Z)
    (max_n max_n' : Z) :
  0 ≤ max_n ≤ max_n' →
  valid_oracle game_function max_n' →
  ∃ G G', Utils.compute_grundy_values game_function max_n = Ok G ∧
          Utils.compute_grundy_values game_function max_n' = Ok G' ∧
          G = take (Z.to_nat (max_n + 1)) G'.
Proof.
  intros Hmax Hval'.
  assert (valid_oracle game_function max_n) as Hval.
  { intros n m Hn Hm. apply Hval'; [lia|done]. }
  destruct (utils_builder_valid game_function max_n ltac:(lia) Hval)
    as (G & HG & Hlen & H0 & Hmex).
  destruct (utils_builder_valid game_function max_n' ltac:(lia) Hval')
    as (G' & HG' & Hlen' & H0' & Hmex').
  exists G, G'. split; [done|]. split; [done|].
  assert (∀ k : nat, ∀ n, Z.to_nat n = k → 0 ≤ n ≤ max_n →
            getitem G n = getitem G' n) as Hsame.
  { induction k as [k IH] using lt_wf_ind. intros n Hk Hn.
    destruct (decide (n = 0)) as [->|Hne]; [congruence|].
    destruct (Hmex n) as (g & Hgn & Hg); [lia|].
    destruct (Hmex' n) as (g' & Hgn' & Hg'); [lia|].
    rewrite Hgn, Hgn'. f_equal. apply (is_mex_unique g g' _ Hg).
    apply (is_mex_ext g' (grundy_of G' (game_function n))); [|done].
    intros v. unfold grundy_of. split; intros (m & Hm & Hgm);
      exists m; (split; [done|]);
      assert (0 ≤ m < n) by (apply (Hval n); [lia|done]);
      [rewrite (IH (Z.to_nat m)) with (n := m)|
       rewrite <- (IH (Z.to_nat m)) with (n := m)]; done || lia. }
  apply list_eq. intros i.
  destruct (decide (i < Z.to_nat (max_n + 1))%nat) as [Hi|Hi].
  - rewrite lookup_take_lt by done.
    destruct (getitem_nonneg G (Z.of_nat i)) as (v & Hv & Hlk); [lia|].
    destruct (getitem_nonneg G' (Z.of_nat i)) as (v' & Hv' & Hlk'); [lia|].
    rewrite Nat2Z.id in Hlk, Hlk'. rewrite Hlk, Hlk'. f_equal.
    rewrite (Hsame i (Z.of_nat i)) in Hv by lia. congruence.
  - rewrite lookup_take_ge by lia. apply lookup_ge_None.
    unfold seq_len in Hlen. lia.
Qed.

Lemma compute_grundy_values_prefix_witness :
  ∃ G G', Utils.compute_grundy_values (Main.get_subtraction_game_function [2; 3]) 4
            = Ok G ∧
          Utils.compute_grundy_values (Main.get_subtraction_game_function [2; 3]) 9
            = Ok G' ∧
          G = take (Z.to_nat (4 + 1)) G'.
Proof.
  apply (compute_grundy_values_prefix (Main.get_subtraction_game_function [2; 3]) 4 9).
  - lia.
  - intros n m Hn Hm. apply elem_of_get_subtraction_game_function in Hm.
    apply (subtraction_positions_valid [2; 3] 9) in Hm; [done| |done].
    repeat constructor; lia.
Defined.

(** ** The all-but oracle of [main.py] *)

Lemma elem_of_get_allbut_game_function (S : list Z) (x m : Z) :
  m ∈ Main.get_allbut_game_function S x ↔ 1 ≤ m ≤ x ∧ m ∉ S.
Proof.
  unfold Main.get_allbut_game_function.
  rewrite elem_of_elements, elem_of_list_to_set, list_elem_of_filter,
    elem_of_range.
  split; intros [? ?]; split; done || lia.
Qed.

Lemma range_snoc (a b : Z) : a ≤ b → range a (b + 1) = range a b ++ [b].
Proof.
  intros Hab. unfold range.
  replace (b + 1 - a) with ((b - a) + 1) by lia.
  rewrite seqZ_app by lia. f_equal.
  replace (a + (b - a)) with b by lia.
  rewrite seqZ_cons by lia. by rewrite seqZ_nil by lia.
Qed.

Lemma allbut_count_0 (S : list Z) : allbut_count S 0 = 0.
Proof. unfold allbut_count. by rewrite range_nil by lia. Qed.

Lemma allbut_count_step (S : list Z) (n : Z) :
  1 ≤ n →
  allbut_count S n = allbut_count S (n - 1) + (if decide (n ∈ S) then 0 else 1).
Proof.
  intros Hn. unfold allbut_count.
  rewrite (range_snoc 1 n) by lia. replace (n - 1 + 1) with n by lia.
  rewrite filter_app, length_app, filter_cons, filter_nil.
  destruct (decide (n ∉ S)) as [Hout|Hin]; destruct (decide (n ∈ S));
    try done; simpl; lia.
Qed.

Lemma allbut_count_mono (S : list Z) (m n : Z) :
  0 ≤ m ≤ n → 0 ≤ allbut_count S m ≤ allbut_count S n.
Proof.
  intros Hmn. split; [unfold allbut_count; lia|].
  replace n with (m + Z.of_nat (Z.to_nat (n - m))) by lia.
  induction (Z.to_nat (n - m)) as [|k IH].
  - replace (m + Z.of_nat 0) with m by lia. lia.
  - rewrite (allbut_count_step S (m + Z.of_nat (Datatypes.S k))) by lia.
    replace (m + Z.of_nat (Datatypes.S k) - 1) with (m + Z.of_nat k) by lia.
    destruct (decide (_ ∈ S)); lia.
Qed.

(** Every count from 1 to [allbut_count S n] is the count of some
    position of [1, n] outside [S]. *)
Lemma allbut_count_reached (S : list Z) (n j : Z) :
  0 ≤ n → 1 ≤ j ≤ allbut_count S n →
  ∃ m, 1 ≤ m ≤ n ∧ (m ∉ S) ∧ allbut_count S m = j.
Proof.
  intros Hn. replace n with (Z.of_nat (Z.to_nat n)) by lia.
  induction (Z.to_nat n) as [|k IH]; intros Hj.
  - rewrite allbut_count_0 in Hj. lia.
  - rewrite (allbut_count_step S (Z.of_nat (Datatypes.S k))) in Hj by lia.
    replace (Z.of_nat (Datatypes.S k) - 1) with (Z.of_nat k) in Hj by lia.
    destruct (decide (Z.of_nat (Datatypes.S k) ∈ S)) as [Hin|Hout].
    + destruct IH as (m & Hm & Hout & Hc); [lia|].
      exists m. split; [lia|done].
    + destruct (decide (j = allbut_count S (Z.of_nat k) + 1)) as [->|Hne].
      * exists (Z.of_nat (Datatypes.S k)). split; [lia|]. split; [done|].
        rewrite (allbut_count_step S (Z.of_nat (Datatypes.S k))) by lia.
        replace (Z.of_nat (Datatypes.S k) - 1) with (Z.of_nat k) by lia.
        destruct (decide (_ ∈ S)); [done|lia].
      * destruct IH as (m & Hm & Hout' & Hc); [lia|].
        exists m. split; [lia|done].
Qed.

Lemma allbut_value_outside (S : list Z) (m : Z) :
  1 ≤ m → m ∉ S → allbut_value S m = allbut_count S m ∧ 1 ≤ allbut_count S m.
Proof.
  intros Hm Hout. unfold allbut_value.
  destruct (decide (m ∈ S)); [done|]. split; [done|].
  rewrite (allbut_count_step S m) by lia.
  pose proof (allbut_count_mono S 0 (m - 1)).
  destruct (decide (m ∈ S)); [done|lia].
Qed.

(** One pass of the builder on the all-but oracle: position [n] itself
    is among the positions read when [n] is outside [S], and it still
    holds 0. *)
Lemma allbut_step (S : list Z) (n : Z) (G : list Z) :
  1 ≤ n →
  (∀ i, 0 ≤ i < n → getitem G i = Ok (allbut_value S i)) →
  getitem G n = Ok 0 →
  is_mex (allbut_value S n) (grundy_of G (Main.get_allbut_game_function S n)).
Proof.
  intros Hn Hbelow Hself.
  assert (∀ m v, m ∈ Main.get_allbut_game_function S n → getitem G m = Ok v →
            (m = n ∧ (n ∉ S) ∧ v = 0) ∨
            (1 ≤ m < n ∧ (m ∉ S) ∧ v = allbut_count S m ∧ 1 ≤ v)) as Hread.
  { intros m v Hm Hv. apply elem_of_get_allbut_game_function in Hm as [Hm Hout].
    destruct (decide (m = n)) as [->|Hne].
    - left. split; [done|]. split; [done|]. congruence.
    - right. rewrite Hbelow in Hv by lia.
      destruct (allbut_value_outside S m) as [Heq Hpos]; [lia|done|].
      split; [lia|]. split; [done|]. split; congruence. }
  unfold allbut_value at 1. destruct (decide (n ∈ S)) as [Hin|Hout].
  - split; [done|]. split; [|intros; lia].
    intros (m & Hm & Hv). destruct (Hread m 0 Hm Hv) as [(_ & ? & _)|(_ & _ & _ & ?)];
      [done|lia].
  - pose proof (allbut_count_step S n Hn) as Hstep.
    destruct (decide (n ∈ S)); [done|].
    pose proof (allbut_count_mono S 0 (n - 1)) as Hmono0.
    split; [lia|]. split.
    + intros (m & Hm & Hv).
      destruct (Hread m _ Hm Hv) as [(_ & _ & ?)|(Hm' & _ & Heq & _)]; [lia|].
      pose proof (allbut_count_mono S m (n - 1)). lia.
    + intros j Hj. destruct (decide (j = 0)) as [->|Hne].
      * exists n. split; [|done].
        apply elem_of_get_allbut_game_function. split; [lia|done].
      * destruct (allbut_count_reached S (n - 1) j) as (m & Hm & Hout' & Hc);
          [lia|lia|].
        exists m. split.
        -- apply elem_of_get_allbut_game_function. split; [lia|done].
        -- rewrite Hbelow by lia. f_equal.
           destruct (allbut_value_outside S m); [lia|done|]. congruence.
Qed.

(** The builder on the all-but oracle of [main.py].  The oracle reports
    the positions of [1, n] outside [S], position [n] included, so the
    builder reads the 0 that position [n] still holds: the value at [n]
    is 0 when [n] is in [S], and otherwise the number of positions of
    [1, n] outside [S]. *)
Theorem allbut_game_closed_form (S : list Z) (max_n : Z) :
  0 ≤ max_n →
  ∃ G, Utils.compute_grundy_values (Main.get_allbut_game_function S) max_n = Ok G ∧
       seq_len G = max_n + 1 ∧
       ∀ n, 0 ≤ n ≤ max_n →
         getitem G n = Ok (if decide (n ∈ S) then 0 else allbut_count S n).
Proof.
  intros Hmax.
  apply (utils_builder_closed_form (Main.get_allbut_game_function S)
           (allbut_value S) max_n Hmax).
  - unfold allbut_value. rewrite allbut_count_0. by destruct (decide (0 ∈ S)).
  - intros n G Hn Hlen Hbelow Hzero. split.
    + intros m Hm. apply elem_of_get_allbut_game_function in Hm. lia.
    + apply allbut_step; [lia|done|]. apply Hzero. lia.
Qed.

Lemma allbut_game_closed_form_witness :
  ∃ G, Utils.compute_grundy_values (Main.get_allbut_game_function [2; 3]) 6 = Ok G ∧
       seq_len G = 6 + 1 ∧
       ∀ n, 0 ≤ n ≤ 6 →
         getitem G n = Ok (if decide (n ∈ [2; 3]) then 0 else allbut_count [2; 3] n).
Proof. apply (allbut_game_closed_form [2; 3] 6). lia. Defined.

(** The scenario of the all-but game with [S = [2, 3]]: the oracle
    reports [{1, 4, 5, 6}] at 6, and the sequence up to 6 is
    [0, 1, 0, 0, 2, 3, 4]. *)
Example allbut_2_3_scenario :
  (∀ m, m ∈ Main.get_allbut_game_function [2; 3] 6 ↔ m ∈ [1; 4; 5; 6]) ∧
  Utils.compute_grundy_values (Main.get_allbut_game_function [2; 3]) 6
    = Ok [0; 1; 0; 0; 2; 3; 4].
Proof.
  split; [|vm_compute; reflexivity].
  intros m. rewrite elem_of_get_allbut_game_function.
  rewrite !elem_of_cons, elem_of_nil. lia.
Qed.

(** ** Printing a segment *)

Lemma subscript_colors (x : Z) :
  ∃ c, subscript colors (x `mod` Z.of_nat (length colors)) = Ok c.
Proof.
  pose proof (Z.mod_pos_bound x (Z.of_nat (length colors)) ltac:(simpl; lia)) as Hx.
  unfold subscript.
  destruct (Z.ltb_spec (x `mod` Z.of_nat (length colors)) 0); [lia|].
  destruct (Z.leb_spec 0 (x `mod` Z.of_nat (length colors))); [|lia].
  destruct (Z.ltb_spec (x `mod` Z.of_nat (length colors))
              (Z.of_nat (length colors))); [|lia].
  simpl andb. cbv iota.
  destruct (lookup_lt_is_Some_2 colors
              (Z.to_nat (x `mod` Z.of_nat (length colors)))) as [c Hc]; [lia|].
  rewrite Hc. eauto.
Qed.

(** The printing loop on indices that are all subscripts of the list,
    with a period other than 0: one line per index, in order. *)
Lemma print_segment_loop_returns (G : list Z) (start period : Z)
    (indices : list Z) :
  period ≠ 0 →
  (∀ i, i ∈ indices → - seq_len G ≤ i < seq_len G) →
  ∃ lines, print_segment_loop G start period indices = (lines, Returned) ∧
    length lines = length indices ∧
    ∀ (k : nat) i, indices !! k = Some i →
      ∃ c v, lines !! k = Some (Line c i v) ∧ getitem G i = Ok v ∧
             subscript colors (((i - start) `mod` period)
                                 `mod` Z.of_nat (length colors)) = Ok c.
Proof.
  intros Hperiod. induction indices as [|i rest IH]; intros Hsub.
  - exists []. simpl. split; [done|]. split; [done|]. intros k i Hk.
    by rewrite lookup_nil in Hk.
  - cbn [print_segment_loop]. destruct (decide (period = 0)); [done|].
    destruct (subscript_colors ((i - start) `mod` period)) as [c Hc].
    rewrite Hc.
    destruct (getitem_subscript G i) as [v Hv]; [apply Hsub; left|].
    rewrite Hv.
    destruct IH as (lines & -> & Hlen & Hlines);
      [intros j Hj; apply Hsub; by right|].
    exists (Line c i v :: lines). split; [done|]. split; [simpl; lia|].
    intros [|k] j Hk; simpl in Hk.
    + simplify_eq. exists c, v. done.
    + by apply Hlines.
Qed.

Lemma lookup_range (a b : Z) (k : nat) (i : Z) :
  range a b !! k = Some i ↔ i = a + Z.of_nat k ∧ a + Z.of_nat k < b.
Proof. unfold range. rewrite lookup_seqZ. lia. Qed.

Lemma length_range (a b : Z) : Z.of_nat (length (range a b)) = Z.max 0 (b - a).
Proof. unfold range. rewrite length_seqZ. lia. Qed.

Lemma print_periodic_segment_returns (G : list Z) (start period num_periods : Z) :
  let stop := Z.min (start + (num_periods * period + 1)) (seq_len G) in
  period ≠ 0 → - seq_len G ≤ start →
  ∃ lines,
    Utils.print_periodic_segment G (Some start) (Some period) num_periods
      = (lines, Returned) ∧
    Z.of_nat (length lines) = Z.max 0 (stop - start) ∧
    ∀ k, 0 ≤ k < stop - start →
      ∃ c v, lines !! Z.to_nat k = Some (Line c (start + k) v) ∧
             getitem G (start + k) = Ok v ∧
             subscript colors ((k `mod` period) `mod` 7) = Ok c.
Proof.
  intros stop Hperiod Hlow.
  unfold Utils.print_periodic_segment. fold (seq_len G). fold stop.
  destruct (print_segment_loop_returns G start period (range start stop) Hperiod)
    as (lines & -> & Hlen & Hlines).
  { intros i Hi. apply elem_of_range in Hi. unfold stop in Hi. lia. }
  exists lines. split; [done|]. split.
  { rewrite Hlen. apply length_range. }
  intros k Hk.
  destruct (Hlines (Z.to_nat k) (start + k)) as (c & v & Hl & Hv & Hc).
  { apply lookup_range. lia. }
  exists c, v. split; [done|]. split; [done|].
  by replace (start + k - start) with k in Hc by lia.
Qed.

(** [print_periodic_segment] on a start and a period that are integers:
    how it ends, and what it prints when it returns.  With
    [end = min(start + num_periods * period + 1, len(G))]:
    nothing is printed when [end <= start]; otherwise a period of 0
    raises [ZeroDivisionError] and a start below [-len(G)] raises
    [IndexError], both before anything is printed; otherwise the
    function prints the [end - start] lines of the indices from [start]
    on, line [k] showing [G[start + k]] in the colour
    [colors[(k % period) % 7]].  The same in both modules, whose
    functions agree whenever the period is not [None]. *)
Theorem print_periodic_segment_edges (G : list Z) (start period num_periods : Z) :
  let stop := Z.min (start + (num_periods * period + 1)) (seq_len G) in
  SubtractionGame.print_periodic_segment G (Some start) (Some period) num_periods
    = Utils.print_periodic_segment G (Some start) (Some period) num_periods
  ∧
  (stop ≤ start →
   Utils.print_periodic_segment G (Some start) (Some period) num_periods
     = ([], Returned))
  ∧
  (start < stop → period = 0 →
   Utils.print_periodic_segment G (Some start) (Some period) num_periods
     = ([], Raised ZeroDivisionError))
  ∧
  (start < stop → period ≠ 0 → start < - seq_len G →
   Utils.print_periodic_segment G (Some start) (Some period) num_periods
     = ([], Raised (Subscripting IndexError)))
  ∧
  (start < stop → period ≠ 0 → - seq_len G ≤ start →
   ∃ lines,
     Utils.print_periodic_segment G (Some start) (Some period) num_periods
       = (lines, Returned) ∧
     Z.of_nat (length lines) = stop - start ∧
     ∀ k, 0 ≤ k < stop - start →
       ∃ c v, lines !! Z.to_nat k = Some (Line c (start + k) v) ∧
              getitem G (start + k) = Ok v ∧
              subscript colors ((k `mod` period) `mod` 7) = Ok c).
Proof.
  intros stop. split; [done|].
  unfold Utils.print_periodic_segment. fold (seq_len G). fold stop.
  split; [|split; [|split]].
  - intros Hempty. by rewrite range_nil.
  - intros Hsome ->. rewrite range_cons by done. simpl.
    by destruct (decide (0 = 0)).
  - intros Hsome Hperiod Hlow. rewrite range_cons by done.
    cbn [print_segment_loop]. destruct (decide (period = 0)); [done|].
    destruct (subscript_colors ((start - start) `mod` period)) as [c ->].
    destruct (getitem_cases G start) as [(v & _ & Hin)|[-> _]]; [lia|done].
  - intros Hsome Hperiod Hlow.
    destruct (print_periodic_segment_returns G start period num_periods
                Hperiod Hlow) as (lines & Hrun & Hlen & Hlines).
    exists lines. split; [done|]. split; [fold stop in Hlen; lia|done].
Qed.

Lemma print_periodic_segment_edges_witness :
  (Utils.print_periodic_segment [0; 1; 2; 0; 1] (Some 5) (Some 2) 3 = ([], Returned))
  ∧ (Utils.print_periodic_segment [0; 1; 2; 0; 1] (Some 1) (Some 0) 3
       = ([], Raised ZeroDivisionError))
  ∧ (Utils.print_periodic_segment [0; 1; 2; 0; 1] (Some (-9)) (Some 2) 3
       = ([], Raised (Subscripting IndexError)))
  ∧ (∃ lines,
       Utils.print_periodic_segment [0; 1; 2; 0; 1] (Some 1) (Some 3) 3
         = (lines, Returned) ∧
       Z.of_nat (length lines)
         = Z.min (1 + (3 * 3 + 1)) (seq_len [0; 1; 2; 0; 1]) - 1 ∧
       ∀ k, 0 ≤ k < Z.min (1 + (3 * 3 + 1)) (seq_len [0; 1; 2; 0; 1]) - 1 →
         ∃ c v, lines !! Z.to_nat k = Some (Line c (1 + k) v) ∧
                getitem [0; 1; 2; 0; 1] (1 + k) = Ok v ∧
                subscript colors ((k `mod` 3) `mod` 7) = Ok c).
Proof.
  split; [|split; [|split]].
  - apply (print_periodic_segment_edges [0; 1; 2; 0; 1] 5 2 3).
    unfold seq_len. simpl. lia.
  - apply (print_periodic_segment_edges [0; 1; 2; 0; 1] 1 0 3);
      [unfold seq_len; simpl; lia|done].
  - apply (print_periodic_segment_edges [0; 1; 2; 0; 1] (-9) 2 3);
      [unfold seq_len; simpl; lia..].
  - apply (print_periodic_segment_edges [0; 1; 2; 0; 1] 1 3 3);
      [unfold seq_len; simpl; lia..].
Defined.

(** The segment printed for a witness of [detect_pure_period]: the call
    returns, prints [min(num_periods * p + 1, len(G) - l)] lines, and two
    lines [p] apart show the same value in the same colour. *)
Theorem printed_pure_segment_repeats (G : list Z) (max_p : option Z)
    (l p num_periods : Z) :
  0 ≤ num_periods →
  Utils.detect_pure_period G max_p = Ok (Some l, Some p) →
  ∃ lines,
    Utils.print_periodic_segment G (Some l) (Some p) num_periods = (lines, Returned) ∧
    Z.of_nat (length lines) = Z.min (num_periods * p + 1) (seq_len G - l) ∧
    ∀ k, 0 ≤ k → k + p < Z.of_nat (length lines) →
      ∃ c v, lines !! Z.to_nat k = Some (Line c (l + k) v) ∧
             lines !! Z.to_nat (k + p) = Some (Line c (l + k + p) v).
Proof.
  intros Hnum Hrun.
  destruct (utils_pure_found G max_p l p Hrun) as (Hper & [Hl Hp] & _).
  destruct (print_periodic_segment_returns G l p num_periods)
    as (lines & Hprint & Hlen & Hlines); [lia|lia|].
  exists lines. split; [done|].
  assert (0 ≤ num_periods * p) by nia.
  split; [lia|]. intros k Hk Hkp.
  destruct (Hlines k) as (c & v & Hlk & Hv & Hc); [lia|].
  destruct (Hlines (k + p)) as (c' & v' & Hlk' & Hv' & Hc'); [lia|].
  exists c, v. split; [done|].
  replace (l + (k + p)) with (l + k + p) in * by lia.
  destruct (Hper (l + k)) as (w & Hw & Hw'); [lia|].
  replace (k + p) with (k + 1 * p) in Hc' by lia.
  rewrite Z_mod_plus_full in Hc'.
  rewrite Hlk'. do 2 f_equal; congruence.
Qed.

Lemma printed_pure_segment_repeats_witness :
  ∃ lines,
    Utils.print_periodic_segment [9; 0; 1; 2; 0; 1; 2; 0] (Some 1) (Some 3) 3
      = (lines, Returned) ∧
    Z.of_nat (length lines)
      = Z.min (3 * 3 + 1) (seq_len [9; 0; 1; 2; 0; 1; 2; 0] - 1) ∧
    ∀ k, 0 ≤ k → k + 3 < Z.of_nat (length lines) →
      ∃ c v, lines !! Z.to_nat k = Some (Line c (1 + k) v) ∧
             lines !! Z.to_nat (k + 3) = Some (Line c (1 + k + 3) v).
Proof.
  apply (printed_pure_segment_repeats [9; 0; 1; 2; 0; 1; 2; 0] None 1 3 3).
  - lia.
  - reflexivity.
Defined.

(** ** [main] of [subtraction-game.py] *)

Lemma and_then_returned {L : Type} (out : list L) (next : printed L) :
  and_then (out, Returned) next = (out ++ next.1, next.2).
Proof. done. Qed.

Lemma subtraction_game_pure_found (G : list Z) (max_p : option Z) (l p : Z) :
  SubtractionGame.detect_pure_period G max_p = Ok (Some l, Some p) →
  first_pure_witness G (subtraction_game_bound G max_p) l p.
Proof.
  rewrite subtraction_game_pure_resolved. apply utils_pure_found.
Qed.

Lemma subtraction_game_arith_after_pure (G : list Z) (max_p max_d : option Z)
    (l p : Z) :
  SubtractionGame.detect_pure_period G max_p = Ok (Some l, Some p) →
  ∃ l' p' d', SubtractionGame.detect_arithmetic_period G max_p max_d
                = Ok (Some l', Some p', Some d').
Proof.
  intros Hrun.
  destruct (subtraction_game_pure_found G max_p l p Hrun) as (Hper & Hb & _).
  destruct (pure_periodic_arith G _ l p Hb Hper) as [Hsal0 Hper0].
  destruct (subtraction_game_detect_arithmetic_period_spec G max_p max_d)
    as [(l' & p' & d' & Heq & _)|[_ Hnone]]; [eauto|].
  destruct (Hnone l p Hb). by exists 0.
Qed.

(** When the pure detector finds a witness, [main] of
    [subtraction-game.py] returns, and the segment it prints under the
    arithmetic result is the segment of the pure witness, printed a
    second time: the arithmetic witness is announced but its own segment
    is never printed. *)
Theorem subtraction_game_main_found (moves : list Z) (max_n num_periods : Z)
    (max_p : option Z) (G : list Z) (l p : Z) :
  SubtractionGame.compute_grundy_values moves max_n = Ok G →
  SubtractionGame.detect_pure_period G None = Ok (Some l, Some p) →
  ∃ segment l' p' d',
    SubtractionGame.detect_arithmetic_period G None None
      = Ok (Some l', Some p', Some d') ∧
    SubtractionGame.print_periodic_segment G (Some l) (Some p) 3
      = (segment, Returned) ∧
    SubtractionGame.main moves max_n num_periods max_p =
      ([SubtractionGame.Analyzing moves max_n;
        SubtractionGame.PureFound (Some l) (Some p)]
       ++ (SubtractionGame.Segment <$> segment)
       ++ [SubtractionGame.ArithmeticFound (Some l') (Some p') (Some d')]
       ++ (SubtractionGame.Segment <$> segment),
       Returned).
Proof.
  intros HG Hpure.
  destruct (subtraction_game_arith_after_pure G None None l p Hpure)
    as (l' & p' & d' & Harith).
  destruct (subtraction_game_pure_found G None l p Hpure) as (_ & [Hl Hp] & _).
  destruct (print_periodic_segment_returns G l p 3) as (segment & Hprint & _);
    [lia|lia|].
  exists segment, l', p', d'. split; [done|]. split; [done|].
  unfold SubtractionGame.main, SubtractionGame.print_segment.
  rewrite HG, Hpure, Harith.
  change (SubtractionGame.print_periodic_segment G (Some l) (Some p) 3)
    with (Utils.print_periodic_segment G (Some l) (Some p) 3).
  rewrite Hprint. rewrite !and_then_returned. simpl.
  by rewrite <- ?app_assoc.
Qed.

Lemma subtraction_game_main_found_witness :
  ∃ segment l' p' d',
    SubtractionGame.detect_arithmetic_period [0; 1; 0; 1; 0] None None
      = Ok (Some l', Some p', Some d') ∧
    SubtractionGame.print_periodic_segment [0; 1; 0; 1; 0] (Some 0) (Some 2) 3
      = (segment, Returned) ∧
    SubtractionGame.main [1] 4 3 None =
      ([SubtractionGame.Analyzing [1] 4;
        SubtractionGame.PureFound (Some 0) (Some 2)]
       ++ (SubtractionGame.Segment <$> segment)
       ++ [SubtractionGame.ArithmeticFound (Some l') (Some p') (Some d')]
       ++ (SubtractionGame.Segment <$> segment),
       Returned).
Proof.
  apply (subtraction_game_main_found [1] 4 3 None [0; 1; 0; 1; 0] 0 2);
    reflexivity.
Defined.

(** When the sequence has at least two terms and the pure detector finds
    nothing, [main] of [subtraction-game.py] does not return: the
    arithmetic detector finds a witness at pre-period 0, [main] announces
    it, calls [print_periodic_segment] on the [(None, None)] of the pure
    detector, and [num_periods * period] raises [TypeError]. *)
Theorem subtraction_game_main_raises (moves : list Z) (max_n num_periods : Z)
    (max_p : option Z) (G : list Z) :
  SubtractionGame.compute_grundy_values moves max_n = Ok G →
  2 ≤ seq_len G →
  SubtractionGame.detect_pure_period G None = Ok (None, None) →
  ∃ p d,
    SubtractionGame.main moves max_n num_periods max_p =
      ([SubtractionGame.Analyzing moves max_n;
        SubtractionGame.PureNotFound;
        SubtractionGame.ArithmeticFound (Some 0) (Some p) (Some d)],
       Raised TypeError).
Proof.
  intros HG Hlen Hpure.
  destruct (arith_scan_finds G _ _
    (subtraction_game_detect_arithmetic_period_spec G None None) Hlen)
    as (l & p & d & Harith & Hl); [simpl; lia|].
  simpl in Hl. assert (l = 0) as -> by lia.
  exists p, d. unfold SubtractionGame.main. by rewrite HG, Hpure, Harith.
Qed.

Lemma subtraction_game_main_raises_witness :
  ∃ p d,
    SubtractionGame.main [1; 2; 3] 3 3 None =
      ([SubtractionGame.Analyzing [1; 2; 3] 3;
        SubtractionGame.PureNotFound;
        SubtractionGame.ArithmeticFound (Some 0) (Some p) (Some d)],
       Raised TypeError).
Proof.
  apply (subtraction_game_main_raises [1; 2; 3] 3 3 None [0; 1; 2; 3]).
  - reflexivity.
  - unfold seq_len. simpl. lia.
  - reflexivity.
Defined.

Lemma no_witness_on_short (G : list Z) (max_d : option Z) :
  seq_len G < 2 →
  SubtractionGame.detect_pure_period G None = Ok (None, None) ∧
  SubtractionGame.detect_arithmetic_period G None max_d = Ok (None, None, None).
Proof.
  intros Hshort. split.
  - destruct (subtraction_game_detect_pure_period_spec G None)
      as [(l & p & _ & _ & [Hl Hp] & _)|[Hrun _]]; [lia|done].
  - destruct (subtraction_game_detect_arithmetic_period_spec G None max_d)
      as [(l & p & d & _ & _ & _ & [Hl Hp] & _)|[Hrun _]]; [lia|done].
Qed.

(** How [main] of [subtraction-game.py] ends once the sequence is built:
    it raises [TypeError] exactly when the sequence has at least two
    terms and its last term occurs nowhere before the end; in every other
    case it returns. *)
Theorem subtraction_game_main_ending (moves : list Z) (max_n num_periods : Z)
    (max_p : option Z) (G : list Z) :
  SubtractionGame.compute_grundy_values moves max_n = Ok G →
  let last_repeats :=
    ∃ p v, 1 ≤ p ≤ seq_len G - 1 ∧
           getitem G (seq_len G - 1 - p) = Ok v ∧
           getitem G (seq_len G - 1) = Ok v in
  ((SubtractionGame.main moves max_n num_periods max_p).2 = Raised TypeError ↔
   2 ≤ seq_len G ∧ ¬ last_repeats)
  ∧
  ((SubtractionGame.main moves max_n num_periods max_p).2 = Returned ↔
   seq_len G < 2 ∨ last_repeats).
Proof.
  intros HG last_repeats.
  assert ((∃ l p, SubtractionGame.detect_pure_period G None = Ok (Some l, Some p))
          ↔ last_repeats) as Hiff.
  { rewrite (pure_found_iff G _ _ (subtraction_game_detect_pure_period_spec G None)).
    unfold last_repeats, subtraction_game_bound.
    by replace (Z.min (seq_len G - 1) (seq_len G - 1)) with (seq_len G - 1) by lia. }
  destruct (subtraction_game_detect_pure_period_spec G None)
    as [(l & p & Hpure & _ & [Hl Hp] & _)|[Hpure _]].
  - assert last_repeats as Hrep by (apply Hiff; eauto).
    destruct (subtraction_game_arith_after_pure G None None l p Hpure)
      as (l' & p' & d' & Harith).
    destruct (print_periodic_segment_returns G l p 3) as (segment & Hprint & _);
      [lia|lia|].
    assert ((SubtractionGame.main moves max_n num_periods max_p).2 = Returned)
      as Hend.
    { unfold SubtractionGame.main, SubtractionGame.print_segment.
      rewrite HG, Hpure, Harith.
      change (SubtractionGame.print_periodic_segment G (Some l) (Some p) 3)
        with (Utils.print_periodic_segment G (Some l) (Some p) 3).
      by rewrite Hprint. }
    rewrite Hend. split; split; try done; [intros [_ ?]; done|by right].
  - assert (¬ last_repeats) as Hnot.
    { intros Hrep. apply Hiff in Hrep as (l & p & Heq). congruence. }
    destruct (decide (2 ≤ seq_len G)) as [Hlong|Hshort].
    + destruct (arith_scan_finds G _ _
        (subtraction_game_detect_arithmetic_period_spec G None None) Hlong)
        as (l & p & d & Harith & _); [simpl; lia|].
      assert ((SubtractionGame.main moves max_n num_periods max_p).2
              = Raised TypeError) as Hend.
      { unfold SubtractionGame.main. by rewrite HG, Hpure, Harith. }
      rewrite Hend. split; split; try done. intros [?|?]; [lia|done].
    + destruct (no_witness_on_short G None) as [_ Harith]; [lia|].
      assert ((SubtractionGame.main moves max_n num_periods max_p).2 = Returned)
        as Hend.
      { unfold SubtractionGame.main. by rewrite HG, Hpure, Harith. }
      rewrite Hend. split; split; try done; [intros [? _]; lia|left; lia].
Qed.

Lemma subtraction_game_main_ending_witness :
  (SubtractionGame.main [1; 2; 3] 3 3 None).2 = Raised TypeError.
Proof.
  apply (proj1 (subtraction_game_main_ending [1; 2; 3] 3 3 None [0; 1; 2; 3]
                  ltac:(reflexivity))).
  split; [unfold seq_len; simpl; lia|].
  intros (p & v & Hp & Hv & Hlast).
  unfold seq_len in Hp, Hv, Hlast. simpl in Hp, Hv, Hlast.
  vm_compute in Hlast. simplify_eq.
  assert (p = 1 ∨ p = 2 ∨ p = 3) as [->|[->| ->]] by lia;
    vm_compute in Hv; discriminate.
Defined.

(** ** The builder followed by the detectors *)

Lemma first_pure_witness_returned (G : list Z) (bound l p : Z)
    (r : outcome (option Z * option Z)) :
  (∃ l0 p0, r = Ok (Some l0, Some p0) ∧ first_pure_witness G bound l0 p0)
  ∨ (r = Ok (None, None) ∧ no_pure_witness G bound) →
  first_pure_witness G bound l p →
  r = Ok (Some l, Some p).
Proof.
  intros [(l0 & p0 & -> & Hper0 & Hb0 & Hfirst0)|[_ Hnone]] (Hper & Hb & Hfirst).
  - assert (¬ lex_lt l p l0 p0) as H1 by (intros Hlt; by apply (Hfirst0 l p)).
    assert (¬ lex_lt l0 p0 l p) as H2 by (intros Hlt; by apply (Hfirst l0 p0)).
    unfold lex_lt in H1, H2.
    assert (l0 = l) as -> by lia. assert (p0 = p) as -> by lia. done.
  - by destruct (Hnone l p).
Qed.

Lemma first_arith_witness_returned (G : list Z) (bound l p d : Z)
    (r : outcome (option Z * option Z * option Z)) :
  (∃ l0 p0 d0, r = Ok (Some l0, Some p0, Some d0) ∧
               first_arith_witness G bound l0 p0 d0)
  ∨ (r = Ok (None, None, None) ∧ no_arith_witness G bound) →
  first_arith_witness G bound l p d →
  r = Ok (Some l, Some p, Some d).
Proof.
  intros [(l0 & p0 & d0 & -> & Hsal0 & Hper0 & Hb0 & Hfirst0)|[_ Hnone]]
         (Hsal & Hper & Hb & Hfirst).
  - assert (¬ lex_lt l p l0 p0) as H1.
    { intros Hlt. apply (Hfirst0 l p); [done..|]. by exists d. }
    assert (¬ lex_lt l0 p0 l p) as H2.
    { intros Hlt. apply (Hfirst l0 p0); [done..|]. by exists d0. }
    unfold lex_lt in H1, H2.
    assert (l0 = l) as -> by lia. assert (p0 = p) as -> by lia.
    by rewrite (saltus_unique G l p d0 d Hsal0 Hsal).
  - destruct (Hnone l p Hb). by exists d.
Qed.

(** The sequence [i % K], searched with a bound of at least [K] and
    holding more than [K] terms: the first witness of both searches is
    the period [K] at pre-period 0. *)
Lemma mod_sequence_witness (G : list Z) (K bound : Z) :
  1 ≤ K → K ≤ bound → K ≤ seq_len G - 1 →
  (∀ i, 0 ≤ i < seq_len G → getitem G i = Ok (i `mod` K)) →
  first_pure_witness G bound 0 K ∧ first_arith_witness G bound 0 K 0.
Proof.
  intros HK Hbound Hlen Hval.
  assert (pure_periodic G 0 K) as Hper.
  { intros i Hi. exists (i `mod` K). split; [apply Hval; lia|].
    rewrite Hval by lia. f_equal.
    replace (i + K) with (i + 1 * K) by lia. apply Z_mod_plus_full. }
  assert (in_bounds G bound 0 K) as Hb by (unfold in_bounds; lia).
  split.
  - split; [done|]. split; [done|].
    intros l' p' [Hl' Hp'] [Hlt|[-> Hlt]] Hper'; [lia|].
    destruct (Hper' 0) as (v & Hv0 & Hvp); [lia|].
    rewrite Hval in Hv0, Hvp by lia. simpl in Hvp.
    rewrite Z.mod_0_l in Hv0 by lia. rewrite Z.mod_small in Hvp by lia.
    simplify_eq. lia.
  - destruct (pure_periodic_arith G bound 0 K Hb Hper) as [Hsal0 Hper0].
    split; [done|]. split; [done|]. split; [done|].
    intros l' p' [Hl' Hp'] [Hlt|[-> Hlt]] (d & (hi & lo & Hhi & Hlo & ->) & Hper');
      [lia|].
    rewrite Hval in Hhi, Hlo by lia. simpl in Hhi.
    rewrite Z.mod_0_l in Hlo by lia. rewrite Z.mod_small in Hhi by lia.
    simplify_eq.
    destruct (Hper' (K - p')) as (a & b & Ha & Hb' & Hsum); [lia|].
    rewrite Hval in Ha, Hb' by lia.
    replace (K - p' + p') with K in Hb' by lia.
    rewrite Z.mod_small in Ha by lia. rewrite Z.mod_same in Hb' by lia.
    simplify_eq. lia.
Qed.

(** The whole pipeline on the subtraction game whose moves are exactly
    [1, ..., k], computed up to [max_n >= 2k + 1]: with [max_p] omitted,
    the pure detector of either module returns [(0, k+1)] and the
    arithmetic detector returns [(0, k+1, 0)]. *)
Theorem subtraction_game_take_upto_period (moves : list Z) (k max_n : Z) :
  0 ≤ k → 2 * k + 1 ≤ max_n →
  (∀ m, m ∈ moves ↔ 1 ≤ m ≤ k) →
  ∃ G, SubtractionGame.compute_grundy_values moves max_n = Ok G ∧
       Utils.detect_pure_period G None = Ok (Some 0, Some (k + 1)) ∧
       Utils.detect_arithmetic_period G None None
         = Ok (Some 0, Some (k + 1), Some 0) ∧
       SubtractionGame.detect_pure_period G None = Ok (Some 0, Some (k + 1)) ∧
       SubtractionGame.detect_arithmetic_period G None None
         = Ok (Some 0, Some (k + 1), Some 0).
Proof.
  intros Hk Hmax Hmoves.
  destruct (utils_builder_closed_form (subtraction_positions moves)
              (fun n => n `mod` (k + 1)) max_n) as (G & HG & Hlen & Hval).
  - lia.
  - apply Z.mod_0_l. lia.
  - intros n G Hn HlenG Hbelow _. split.
    + intros x Hx.
      apply elem_of_subtraction_positions in Hx as (m & Hm & Hge & ->).
      apply Hmoves in Hm. lia.
    + by apply take_upto_step; [|lia|..].
  - exists G. rewrite subtraction_game_builder. split; [done|].
    assert (∀ i, 0 ≤ i < seq_len G → getitem G i = Ok (i `mod` (k + 1)))
      as Hval' by (intros i Hi; apply Hval; lia).
    assert (k + 1 ≤ utils_bound G None) as Hub.
    { unfold utils_bound. apply Z.div_le_lower_bound; lia. }
    assert (k + 1 ≤ subtraction_game_bound G None) as Hsb by (simpl; lia).
    destruct (mod_sequence_witness G (k + 1) (utils_bound G None))
      as [Hpu Hau]; [lia..|done|].
    destruct (mod_sequence_witness G (k + 1) (subtraction_game_bound G None))
      as [Hps Has]; [lia..|done|].
    split; [|split; [|split]].
    + apply (first_pure_witness_returned G _ _ _ _
               (utils_detect_pure_period_spec G None) Hpu).
    + apply (first_arith_witness_returned G _ _ _ _ _
               (utils_detect_arithmetic_period_spec G None None) Hau).
    + apply (first_pure_witness_returned G _ _ _ _
               (subtraction_game_detect_pure_period_spec G None) Hps).
    + apply (first_arith_witness_returned G _ _ _ _ _
               (subtraction_game_detect_arithmetic_period_spec G None None) Has).
Qed.

Lemma subtraction_game_take_upto_period_witness :
  ∃ G, SubtractionGame.compute_grundy_values [1; 2; 3; 4] 12 = Ok G ∧
       Utils.detect_pure_period G None = Ok (Some 0, Some (4 + 1)) ∧
       Utils.detect_arithmetic_period G None None
         = Ok (Some 0, Some (4 + 1), Some 0) ∧
       SubtractionGame.detect_pure_period G None = Ok (Some 0, Some (4 + 1)) ∧
       SubtractionGame.detect_arithmetic_period G None None
         = Ok (Some 0, Some (4 + 1), Some 0).
Proof.
  apply (subtraction_game_take_upto_period [1; 2; 3; 4] 4 12); [lia|lia|].
  intros m. rewrite !elem_of_cons, elem_of_nil. lia.
Defined.

(** The whole pipeline on the all-but oracle of [main.py]: when the last
    position [max_n >= 1] is outside [S], its value is larger than every
    value before it, and [detect_pure_period] returns [(None, None)]
    whatever the bound. *)
Theorem allbut_game_no_pure_period (S : list Z) (max_n : Z) (max_p : option Z) :
  1 ≤ max_n → max_n ∉ S →
  ∃ G, Utils.compute_grundy_values (Main.get_allbut_game_function S) max_n = Ok G ∧
       Utils.detect_pure_period G max_p = Ok (None, None).
Proof.
  intros Hmax Hout.
  destruct (utils_builder_closed_form (Main.get_allbut_game_function S)
              (allbut_value S) max_n) as (G & HG & Hlen & Hval).
  - lia.
  - unfold allbut_value. rewrite allbut_count_0. by destruct (decide (0 ∈ S)).
  - intros n G Hn HlenG Hbelow Hzero. split.
    + intros m Hm. apply elem_of_get_allbut_game_function in Hm. lia.
    + apply allbut_step; [lia|done|]. apply Hzero. lia.
  - exists G. split; [done|].
    destruct (utils_detect_pure_period_spec G max_p)
      as [(l & p & Hrun & _)|[Hrun _]]; [|done].
    assert (∃ l p, Utils.detect_pure_period G max_p = Ok (Some l, Some p))
      as Hfound by eauto.
    apply (pure_found_iff G _ _ (utils_detect_pure_period_spec G max_p))
      in Hfound as (q & v & Hq & Hv & Hlast).
    rewrite Hlen in Hq, Hv, Hlast.
    replace (max_n + 1 - 1) with max_n in * by lia.
    rewrite Hval in Hv, Hlast by lia.
    destruct (allbut_value_outside S max_n) as [Heq Hpos]; [lia|done|].
    assert (allbut_value S (max_n - q) = allbut_value S max_n) as Hsame
      by congruence.
    rewrite Heq in Hsame. unfold allbut_value in Hsame.
    destruct (decide (max_n - q ∈ S)); [lia|].
    pose proof (allbut_count_step S max_n ltac:(lia)) as Hstep.
    destruct (decide (max_n ∈ S)); [done|].
    pose proof (allbut_count_mono S (max_n - q) (max_n - 1)). lia.
Qed.

Lemma allbut_game_no_pure_period_witness :
  ∃ G, Utils.compute_grundy_values (Main.get_allbut_game_function [2; 3]) 6 = Ok G ∧
       Utils.detect_pure_period G None = Ok (None, None).
Proof.
  apply (allbut_game_no_pure_period [2; 3] 6 None); [lia|].
  rewrite !elem_of_cons, elem_of_nil. lia.
Defined.
